(** * elastic-scroll: the concurrent scroll / decode / collect pipeline of main.go

    The program counts the documents matching a term query, scrolls through
    them with one producer goroutine, decodes every hit with a pool of
    worker goroutines, collects the decoded hits in the main goroutine and
    writes them to data.json.

    The development embeds main.go as an executable small-step machine: one
    state record holds the program counter and the local variables of every
    goroutine together with the two unbuffered channels, the errgroup and
    its context; a scheduler label selects which goroutine (or which
    channel rendezvous) moves next.  A run is a list of labels. *)

From Stdlib Require Import ZArith Ascii.
From stdpp Require Import base option list strings.

Open Scope string_scope.
Open Scope list_scope.

(** ** Go values used by main.go *)

(** The error values that flow through the program.  [io_EOF] and
    [context_Canceled] are the sentinel values io.EOF and context.Canceled;
    the two json errors are the ones encoding/json returns from Unmarshal;
    [remote_error] stands for whatever the elastic client or the file
    system reports. *)
Inductive error : Type :=
| io_EOF
| context_Canceled
| SyntaxError
| UnmarshalTypeError (value : string)
| remote_error (msg : string).

#[global] Instance error_eq_dec : EqDecision error.
Proof. solve_decision. Defined.

(** A Go slice is nil until the first append. *)
Inductive slice (A : Type) : Type :=
| nil_slice
| mk_slice (elems : list A).
Arguments nil_slice {A}.
Arguments mk_slice {A} elems.

Definition slice_elems {A} (s : slice A) : list A :=
  match s with
  | nil_slice => []
  | mk_slice l => l
  end.

Definition len {A} (s : slice A) : nat := length (slice_elems s).

Definition append {A} (s : slice A) (x : A) : slice A :=
  mk_slice (slice_elems s ++ [x]).

(** type Source struct { Code string `json:"code"` } *)
Record Source : Type := mkSource { Code : string }.

(** type Hit struct { Source; ID string } -- the embedded struct is the
    first field, the untagged ID the second. *)
Record Hit : Type := mkHit { Hit_Source : Source; ID : string }.

(** ** encoding/json, as far as main.go uses it *)
Module json.

(** A JSON text after parsing. *)
#[local] Set Warnings "-register-all".
Inductive value : Type :=
| Null
| Bool (b : bool)
| Number (literal : string)
| String (s : string)
| Array (elems : list value)
| Object (members : list (string * value)).

(** A json.RawMessage holds undecoded bytes.  The scanner of
    encoding/json either rejects them or reads them as one JSON value;
    the bytes themselves play no further part in main.go. *)
Inductive RawMessage : Type :=
| Malformed (bytes : string)
| WellFormed (v : value).

(** The word an UnmarshalTypeError uses for the offending JSON value. *)
Definition kind (v : value) : string :=
  match v with
  | Null => "null"
  | Bool _ => "bool"
  | Number _ => "number"
  | String _ => "string"
  | Array _ => "array"
  | Object _ => "object"
  end.

(** Key folding: a key selects a struct field when it equals the field
    name byte for byte or, failing that, when both have the same length
    and agree on every byte up to the ASCII case bit (mask 0xDF) at the
    positions where the field name has a letter. *)
Definition caseMask : N := 223.

Definition is_letter (c : ascii) : bool :=
  let n := N_of_ascii c in
  ((97 <=? n) && (n <=? 122) || (65 <=? n) && (n <=? 90))%N.

Fixpoint asciiEqualFold (s t : string) : bool :=
  match s, t with
  | EmptyString, EmptyString => true
  | String.String sb s', String.String tb t' =>
      (Ascii.eqb sb tb
       || is_letter sb
          && (N.land (N_of_ascii sb) caseMask =? N.land (N_of_ascii tb) caseMask)%N)
      && asciiEqualFold s' t'
  | _, _ => false
  end.

Definition field_matches (name key : string) : bool :=
  String.eqb name key || asciiEqualFold name key.

(** The decoder records the first error and carries on. *)
Definition saveError (saved : option error) (e : error) : option error :=
  match saved with
  | Some e0 => Some e0
  | None => Some e
  end.

(** Storing one member value into the string field Code: a string is
    stored, null leaves the field alone, anything else is a type error. *)
Definition store_Code (v : value) (p : Source) (saved : option error)
  : Source * option error :=
  match v with
  | String s => (mkSource s, saved)
  | Null => (p, saved)
  | _ => (p, saveError saved (UnmarshalTypeError (kind v)))
  end.

(** Decoding the members of an object into a Source, in document
    order; members whose key selects no field are skipped. *)
Fixpoint object_into_Source (members : list (string * value)) (p : Source)
    (saved : option error) : Source * option error :=
  match members with
  | [] => (p, saved)
  | (key, v) :: rest =>
      if field_matches "code" key
      then let '(p', saved') := store_Code v p saved in
           object_into_Source rest p' saved'
      else object_into_Source rest p saved
  end.

(** json.Unmarshal(data, &p) for p of type Source: the whole input is
    checked first, then decoded. *)
Definition Unmarshal (data : RawMessage) (p : Source) : Source * option error :=
  match data with
  | Malformed _ => (p, Some SyntaxError)
  | WellFormed Null => (p, None)
  | WellFormed (Object members) => object_into_Source members p None
  | WellFormed v => (p, Some (UnmarshalTypeError (kind v)))
  end.

(** json.Marshal of a Hit: the promoted field of the embedded Source
    comes first under its tag, the untagged ID under its Go name. *)
Definition Marshal_Hit (h : Hit) : value :=
  Object [("code", String (Code (Hit_Source h))); ("ID", String (ID h))].

(** json.Marshal of a []Hit: a nil slice encodes as null, any other
    slice as an array.  Encoding strings cannot fail. *)
Definition Marshal (data : slice Hit) : value :=
  match data with
  | nil_slice => Null
  | mk_slice l => Array (map Marshal_Hit l)
  end.

End json.

(** ** The elastic client, as far as main.go uses it *)
Module elastic.

(** elastic.SearchHit: the identifier and a pointer to the undecoded
    _source, nil when the hit carries none. *)
Record SearchHit : Type := mkSearchHit {
  Id : string;
  Source : option json.RawMessage
}.

(** What one call of scroll.Do returns: a page of hits, or an error
    (io.EOF once all results are retrieved). *)
Inductive DoResult : Type :=
| Page (hits : list SearchHit)
| Fail (err : error).

(** The server-side cursor is the sequence of answers still to come;
    an exhausted cursor answers io.EOF.  What the client answers to a
    request made with a cancelled context is one of these answers like
    any other. *)
Definition Scroll : Type := list DoResult.

Definition Do (scroll : Scroll) : DoResult * Scroll :=
  match scroll with
  | [] => (Fail io_EOF, [])
  | r :: rest => (r, rest)
  end.

End elastic.

(** ** The goroutines of main *)

(** The producer goroutine (first g.Go): where it stands in its loop. *)
Inductive producer_pc : Type :=
| P_Do                                    (* results, err := scroll.Do(ctx) *)
| P_Send (rest : list elastic.SearchHit)  (* hits <- *hit, for the hits still in rest *)
| P_Select                                (* select { default: case <-ctx.Done(): } *)
| P_Returned (err : option error).        (* returned; the deferred close(hits) has run *)

(** A worker goroutine (one of the g.Go calls of the for loop). *)
Inductive worker_pc : Type :=
| W_Range                                 (* for hit := range hits *)
| W_Unmarshal (hit : elastic.SearchHit)   (* err := json.Unmarshal(..hit.Source.., &p) *)
| W_Send (hit : elastic.SearchHit) (p : Source)  (* ch <- Hit{ID: hit.Id, Source: p} *)
| W_Increment                             (* bar.Increment() *)
| W_Select                                (* select { default: case <-ctx.Done(): } *)
| W_Returned (err : option error).

(** The goroutine that waits for the group and closes ch. *)
Inductive waiter_pc : Type :=
| G_Wait                                  (* inside g.Wait() *)
| G_Closed.                               (* close(ch) done *)

(** The main goroutine after it has started the others. *)
Inductive main_pc : Type :=
| M_Range                                 (* for hit := range ch *)
| M_Marshal                               (* json.Marshal(data) *)
| M_WriteFile (jsonData : json.value)     (* ioutil.WriteFile("data.json", jsonData, 0644) *)
| M_FinishPrint                           (* bar.FinishPrint("Done") *)
| M_Exit.

(** Everything main.go owns while it runs.  [g_err] is the err field of
    the errgroup, [ctx_done] tells whether the Done channel of the derived
    context is closed, [written] lists the contents handed to
    ioutil.WriteFile so far, [panicked] is set once some goroutine panics
    (which ends the process). *)
Record state : Type := mkState {
  scroll : elastic.Scroll;
  producer : producer_pc;
  hits_closed : bool;
  workers : list worker_pc;
  g_err : option error;
  ctx_done : bool;
  waiter : waiter_pc;
  ch_closed : bool;
  main_at : main_pc;
  data : slice Hit;
  bar_total : Z;
  bar_current : nat;
  WriteFile_err : option error;
  written : list json.value;
  panicked : option error
}.

Definition set_producer (p : producer_pc) (s : state) : state :=
  mkState (scroll s) p (hits_closed s) (workers s) (g_err s) (ctx_done s)
    (waiter s) (ch_closed s) (main_at s) (data s) (bar_total s)
    (bar_current s) (WriteFile_err s) (written s) (panicked s).

Definition set_scroll (c : elastic.Scroll) (s : state) : state :=
  mkState c (producer s) (hits_closed s) (workers s) (g_err s) (ctx_done s)
    (waiter s) (ch_closed s) (main_at s) (data s) (bar_total s)
    (bar_current s) (WriteFile_err s) (written s) (panicked s).

Definition close_hits (s : state) : state :=
  mkState (scroll s) (producer s) true (workers s) (g_err s) (ctx_done s)
    (waiter s) (ch_closed s) (main_at s) (data s) (bar_total s)
    (bar_current s) (WriteFile_err s) (written s) (panicked s).

Definition set_worker (i : nat) (w : worker_pc) (s : state) : state :=
  mkState (scroll s) (producer s) (hits_closed s) (<[i:=w]> (workers s))
    (g_err s) (ctx_done s) (waiter s) (ch_closed s) (main_at s) (data s)
    (bar_total s) (bar_current s) (WriteFile_err s) (written s) (panicked s).

Definition set_group (e : option error) (done : bool) (s : state) : state :=
  mkState (scroll s) (producer s) (hits_closed s) (workers s) e done
    (waiter s) (ch_closed s) (main_at s) (data s) (bar_total s)
    (bar_current s) (WriteFile_err s) (written s) (panicked s).

Definition close_ch (s : state) : state :=
  mkState (scroll s) (producer s) (hits_closed s) (workers s) (g_err s)
    (ctx_done s) G_Closed true (main_at s) (data s) (bar_total s)
    (bar_current s) (WriteFile_err s) (written s) (panicked s).

Definition set_main (m : main_pc) (s : state) : state :=
  mkState (scroll s) (producer s) (hits_closed s) (workers s) (g_err s)
    (ctx_done s) (waiter s) (ch_closed s) m (data s) (bar_total s)
    (bar_current s) (WriteFile_err s) (written s) (panicked s).

Definition set_data (d : slice Hit) (s : state) : state :=
  mkState (scroll s) (producer s) (hits_closed s) (workers s) (g_err s)
    (ctx_done s) (waiter s) (ch_closed s) (main_at s) d (bar_total s)
    (bar_current s) (WriteFile_err s) (written s) (panicked s).

Definition bar_Increment (s : state) : state :=
  mkState (scroll s) (producer s) (hits_closed s) (workers s) (g_err s)
    (ctx_done s) (waiter s) (ch_closed s) (main_at s) (data s) (bar_total s)
    (S (bar_current s)) (WriteFile_err s) (written s) (panicked s).

Definition WriteFile (jsonData : json.value) (s : state) : state :=
  mkState (scroll s) (producer s) (hits_closed s) (workers s) (g_err s)
    (ctx_done s) (waiter s) (ch_closed s) (main_at s) (data s) (bar_total s)
    (bar_current s) (WriteFile_err s) (written s ++ [jsonData]) (panicked s).

Definition panic (e : error) (s : state) : state :=
  mkState (scroll s) (producer s) (hits_closed s) (workers s) (g_err s)
    (ctx_done s) (waiter s) (ch_closed s) (main_at s) (data s) (bar_total s)
    (bar_current s) (WriteFile_err s) (written s) (Some e).

(** *** errgroup *)

(** What the wrapper of g.Go does when the function it runs returns: the
    first non-nil error is stored in the group and cancels the context;
    later ones are dropped. *)
Definition errgroup_returned (r : option error) (s : state) : state :=
  match r, g_err s with
  | Some e, None => set_group (Some e) true s
  | _, _ => s
  end.

(** ctx.Err() once Done is closed. *)
Definition ctx_Err : error := context_Canceled.

Definition producer_returned (p : producer_pc) : bool :=
  match p with P_Returned _ => true | _ => false end.

Definition worker_returned (w : worker_pc) : bool :=
  match w with W_Returned _ => true | _ => false end.

(** The wait group of the errgroup has reached zero. *)
Definition all_returned (s : state) : bool :=
  producer_returned (producer s) && forallb worker_returned (workers s).

(** *** One step of each goroutine *)

Definition producer_return (r : option error) (s : state) : state :=
  errgroup_returned r (close_hits (set_producer (P_Returned r) s)).

Definition step_producer (s : state) : option state :=
  match producer s with
  | P_Do =>
      match elastic.Do (scroll s) with
      | (elastic.Fail err, c) =>
          if decide (err = io_EOF)
          then Some (producer_return None (set_scroll c s))
          else Some (producer_return (Some err) (set_scroll c s))
      | (elastic.Page hs, c) => Some (set_producer (P_Send hs) (set_scroll c s))
      end
  | P_Send [] => Some (set_producer P_Select s)
  | P_Send (_ :: _) => None
  | P_Select =>
      if ctx_done s
      then Some (producer_return (Some ctx_Err) s)
      else Some (set_producer P_Do s)
  | P_Returned _ => None
  end.

(** The unbuffered channel hits: the producer's send and the receive of
    worker i happen together. *)
Definition step_hits (i : nat) (s : state) : option state :=
  match producer s, workers s !! i with
  | P_Send (hit :: rest), Some W_Range =>
      Some (set_worker i (W_Unmarshal hit) (set_producer (P_Send rest) s))
  | _, _ => None
  end.

Definition worker_return (i : nat) (r : option error) (s : state) : state :=
  errgroup_returned r (set_worker i (W_Returned r) s).

Definition step_worker (i : nat) (s : state) : option state :=
  match workers s !! i with
  | Some W_Range =>
      if hits_closed s then Some (worker_return i None s) else None
  | Some (W_Unmarshal hit) =>
      match elastic.Source hit with
      | None => Some (panic (remote_error "nil pointer dereference") s)
      | Some raw =>
          match json.Unmarshal raw (mkSource "") with
          | (_, Some e) => Some (worker_return i (Some e) s)
          | (p, None) => Some (set_worker i (W_Send hit p) s)
          end
      end
  | Some W_Increment => Some (set_worker i W_Select (bar_Increment s))
  | Some W_Select =>
      if ctx_done s
      then Some (worker_return i (Some ctx_Err) s)
      else Some (set_worker i W_Range s)
  | _ => None
  end.

(** The unbuffered channel ch: the send of worker i and the receive of
    the main goroutine happen together, and main appends the hit. *)
Definition step_ch (i : nat) (s : state) : option state :=
  match main_at s, workers s !! i with
  | M_Range, Some (W_Send hit p) =>
      Some (set_worker i W_Increment
              (set_data (append (data s) (mkHit p (elastic.Id hit))) s))
  | _, _ => None
  end.

(** g.Wait() returns once every function passed to g.Go has returned;
    it cancels the context and hands back the stored error. *)
Definition step_waiter (s : state) : option state :=
  match waiter s with
  | G_Wait =>
      if all_returned s
      then let s' := set_group (g_err s) true s in
           match g_err s with
           | Some e => Some (panic e s')
           | None => Some (close_ch s')
           end
      else None
  | G_Closed => None
  end.

Definition step_main (s : state) : option state :=
  match main_at s with
  | M_Range => if ch_closed s then Some (set_main M_Marshal s) else None
  | M_Marshal => Some (set_main (M_WriteFile (json.Marshal (data s))) s)
  | M_WriteFile jsonData =>
      let s' := WriteFile jsonData s in
      match WriteFile_err s with
      | Some e => Some (panic e s')
      | None => Some (set_main M_FinishPrint s')
      end
  | M_FinishPrint => Some (set_main M_Exit s)
  | M_Exit => None
  end.

(** *** The scheduler *)

Inductive label : Type :=
| run_producer
| pass_hit (i : nat)
| run_worker (i : nat)
| pass_result (i : nat)
| run_waiter
| run_main.

(** A panic or the return of main ends the process. *)
Definition step (l : label) (s : state) : option state :=
  match panicked s, main_at s with
  | Some _, _ => None
  | None, M_Exit => None
  | None, _ =>
      match l with
      | run_producer => step_producer s
      | pass_hit i => step_hits i s
      | run_worker i => step_worker i s
      | pass_result i => step_ch i s
      | run_waiter => step_waiter s
      | run_main => step_main s
      end
  end.

Fixpoint exec (sched : list label) (s : state) : option state :=
  match sched with
  | [] => Some s
  | l :: rest =>
      match step l s with
      | Some s' => exec rest s'
      | None => None
      end
  end.

(** *** main up to the point where the goroutines are started *)

(** What the outside world answers: elastic.NewClient, the Count request,
    the scroll requests, and the final ioutil.WriteFile. *)
Record world : Type := mkWorld {
  NewClient_err : option error;
  Count_result : error + Z;
  Scroll_answers : elastic.Scroll;
  WriteFile_answer : option error
}.

Definition spawned (nworkers : nat) (w : world) (total : Z) : state :=
  mkState (Scroll_answers w) P_Do false (replicate nworkers W_Range) None false
    G_Wait false M_Range nil_slice total 0 (WriteFile_answer w) [] None.

(** [start n w] is the state in which main reaches its range loop over ch
    with n workers started, or the state of the panic that stopped it
    before. *)
Definition start (nworkers : nat) (w : world) : state :=
  match NewClient_err w with
  | Some e => panic e (spawned 0 w 0)
  | None =>
      match Count_result w with
      | inl e => panic e (spawned 0 w 0)
      | inr total => spawned nworkers w total
      end
  end.

(** main.go starts ten workers. *)
Definition main (w : world) : state := start 10 w.

Definition reachable (nworkers : nat) (w : world) (s : state) : Prop :=
  ∃ sched, exec sched (start nworkers w) = Some s.

(** ** What a run is about *)

(** The hits the cursor yields before it first answers with an error
    (io.EOF included). *)
Fixpoint scrolled_hits (c : elastic.Scroll) : list elastic.SearchHit :=
  match c with
  | elastic.Page hs :: rest => hs ++ scrolled_hits rest
  | _ => []
  end.

(** The error that ends the scroll. *)
Fixpoint scroll_end (c : elastic.Scroll) : error :=
  match c with
  | [] => io_EOF
  | elastic.Fail e :: _ => e
  | elastic.Page _ :: rest => scroll_end rest
  end.

(** What a worker makes of a hit when nothing goes wrong: lines 103-111. *)
Definition decode (hit : elastic.SearchHit) : option Source :=
  match elastic.Source hit with
  | None => None
  | Some raw =>
      match json.Unmarshal raw (mkSource "") with
      | (p, None) => Some p
      | (_, Some _) => None
      end
  end.

(** The Hit main collects for a hit that decodes. *)
Definition decoded (hit : elastic.SearchHit) : Hit :=
  mkHit (default (mkSource "") (decode hit)) (elastic.Id hit).

(** The hits a goroutine holds in its local variables and has not yet
    passed on. *)
Definition in_flight (w : worker_pc) : list elastic.SearchHit :=
  match w with
  | W_Unmarshal hit => [hit]
  | W_Send hit _ => [hit]
  | _ => []
  end.

(** The hits the producer has still to send: the rest of its page and
    the pages to come. *)
Definition to_send (s : state) : list elastic.SearchHit :=
  match producer s with
  | P_Do | P_Select => scrolled_hits (scroll s)
  | P_Send rest => rest ++ scrolled_hits (scroll s)
  | P_Returned _ => []
  end.

(** The run has come to its end with data.json written. *)
Definition succeeded (s : state) : Prop :=
  main_at s = M_Exit ∧ panicked s = None.

(** Some stage of the group has failed, or a worker has panicked. *)
Definition aborted (s : state) : Prop :=
  is_Some (g_err s) ∨ (is_Some (panicked s) ∧ main_at s = M_Range).

(** No goroutine can move although the process has neither finished
    nor panicked. *)
Definition deadlocked (s : state) : Prop :=
  panicked s = None ∧ main_at s ≠ M_Exit ∧ ∀ l, step l s = None.

(** The identifiers of a list of collected hits. *)
Definition ids (l : list Hit) : list string := map ID l.

(** ** Invariants of every run *)

Record inv (w : world) (s : state) : Prop := mkInv {
  inv_hits : hits_closed s = producer_returned (producer s);
  inv_ch : ch_closed s = true → waiter s = G_Closed;
  inv_closed : waiter s = G_Closed →
    ch_closed s = true ∧ all_returned s = true ∧ g_err s = None;
  inv_main : main_at s ≠ M_Range → ch_closed s = true;
  inv_json : ∀ j, main_at s = M_WriteFile j → j = json.Marshal (data s);
  inv_written : written s =
    match main_at s with
    | M_Range | M_Marshal => []
    | M_WriteFile j => match panicked s with Some _ => [j] | None => [] end
    | M_FinishPrint | M_Exit => [json.Marshal (data s)]
    end;
  inv_ctx : ctx_done s = true ↔ is_Some (g_err s) ∨ waiter s = G_Closed;
  inv_end : g_err s = None →
    if producer_returned (producer s)
    then scroll_end (Scroll_answers w) = io_EOF
    else scroll_end (scroll s) = scroll_end (Scroll_answers w);
  inv_send : ∀ i hit p,
    workers s !! i = Some (W_Send hit p) → decode hit = Some p;
  inv_nil : slice_elems (data s) = [] → data s = nil_slice;
  inv_flow : g_err s = None →
    ∃ collected,
      slice_elems (data s) = map decoded collected
      ∧ Forall (λ hit, is_Some (decode hit)) collected
      ∧ scrolled_hits (Scroll_answers w)
          ≡ₚ collected ++ (workers s ≫= in_flight) ++ to_send s
}.

(** How the stages that have returned relate to the group: a worker
    returns nil only once hits is closed, and whoever returns an error
    leaves an error in the group. *)
Record returned_inv (n : nat) (s : state) : Prop := mkReturnedInv {
  ret_nil : ∀ i, workers s !! i = Some (W_Returned None) → hits_closed s = true;
  ret_err : ∀ i e, workers s !! i = Some (W_Returned (Some e)) → is_Some (g_err s);
  ret_producer : ∀ e, producer s = P_Returned (Some e) → is_Some (g_err s);
  ret_workers : panicked s = None → length (workers s) = n
}.

(** ** The properties examined below *)

(** The stage that moves under label [l] returns [r] in the step from
    [s] to [s']. *)
Definition stage_returns (l : label) (s s' : state) (r : option error) : Prop :=
  match l with
  | run_producer =>
      producer_returned (producer s) = false ∧ producer s' = P_Returned r
  | run_worker i =>
      (∃ x, workers s !! i = Some x ∧ worker_returned x = false)
      ∧ workers s' !! i = Some (W_Returned r)
  | _ => False
  end.

(** scroll.Do is about to report an error other than io.EOF. *)
Definition source_error (l : label) (s : state) : Prop :=
  l = run_producer ∧ producer s = P_Do
  ∧ ∃ e, (elastic.Do (scroll s)).1 = elastic.Fail e ∧ e ≠ io_EOF.

(** A worker is about to decode a hit that does not decode. *)
Definition decode_failure (l : label) (s : state) : Prop :=
  ∃ i hit, l = run_worker i ∧ workers s !! i = Some (W_Unmarshal hit)
           ∧ decode hit = None.

(** A JSON object with exactly the members named. *)
Definition object_with_fields (names : list string) (v : json.value) : Prop :=
  ∃ members, v = json.Object members ∧ members.*1 ≡ₚ names.

Definition array_of_objects_with (names : list string) (v : json.value) : Prop :=
  ∃ objs, v = json.Array objs ∧ Forall (object_with_fields names) objs.

(** An object has a member under the key [name], byte for byte. *)
Definition has_member (name : string) (v : json.value) : Prop :=
  ∃ members x, v = json.Object members ∧ (name, x) ∈ members.

Definition is_string_or_null (v : json.value) : bool :=
  match v with
  | json.String _ | json.Null => true
  | _ => false
  end.

(** Some member selects the field Code and holds neither a string nor
    null. *)
Definition bad_code_member (members : list (string * json.value)) : bool :=
  existsb (λ kv, json.field_matches "code" kv.1 && negb (is_string_or_null kv.2))
    members.

(** No member selects the field Code. *)
Definition no_code_member (members : list (string * json.value)) : bool :=
  forallb (λ kv, negb (json.field_matches "code" kv.1)) members.

(** ** Sample worlds and schedules *)

Definition doc (code : string) : json.RawMessage :=
  json.WellFormed (json.Object [("code", json.String code)]).

Definition hit_a : elastic.SearchHit := elastic.mkSearchHit "a" (Some (doc "x")).
Definition hit_b : elastic.SearchHit := elastic.mkSearchHit "b" (Some (doc "y")).
Definition hit_c : elastic.SearchHit := elastic.mkSearchHit "c" (Some (doc "z")).

(** A document whose code is a number, and one whose code is a boolean. *)
Definition hit_number (id : string) : elastic.SearchHit :=
  elastic.mkSearchHit id
    (Some (json.WellFormed (json.Object [("code", json.Number "5")]))).

Definition hit_bool (id : string) : elastic.SearchHit :=
  elastic.mkSearchHit id
    (Some (json.WellFormed (json.Object [("code", json.Bool true)]))).

(** A document that decodes, with its identifier as code. *)
Definition hit_ok (id : string) : elastic.SearchHit :=
  elastic.mkSearchHit id (Some (doc id)).

(** Three matching documents on two pages of size two. *)
Definition world_three : world :=
  mkWorld None (inr 3%Z)
    [elastic.Page [hit_a; hit_b]; elastic.Page [hit_c]; elastic.Fail io_EOF] None.

(** One matching document. *)
Definition world_one : world :=
  mkWorld None (inr 1%Z) [elastic.Page [hit_a]; elastic.Fail io_EOF] None.

(** No matching document. *)
Definition world_none : world :=
  mkWorld None (inr 0%Z) [elastic.Fail io_EOF] None.

(** The count says one document, the scroll finds none. *)
Definition world_miscount : world :=
  mkWorld None (inr 1%Z) [elastic.Fail io_EOF] None.

(** The second scroll request fails. *)
Definition world_source_error : world :=
  mkWorld None (inr 3%Z)
    [elastic.Page [hit_a; hit_b]; elastic.Fail (remote_error "connection refused")]
    None.

(** One page with two documents that do not decode. *)
Definition world_two_failures : world :=
  mkWorld None (inr 2%Z)
    [elastic.Page [hit_number "a"; hit_bool "b"]; elastic.Fail io_EOF] None.

(** One page of eleven documents, the first of which does not decode. *)
Definition world_one_bad_of_eleven : world :=
  mkWorld None (inr 11%Z)
    [elastic.Page
       (hit_number "0"
        :: map hit_ok ["1"; "2"; "3"; "4"; "5"; "6"; "7"; "8"; "9"; "10"]);
     elastic.Fail io_EOF] None.

(** Worker i takes one hit from the producer, decodes it, hands it to
    main, counts it and looks at the context. *)
Definition one_hit (i : nat) : list label :=
  [pass_hit i; run_worker i; pass_result i; run_worker i; run_worker i].

(** After the producer has returned: the n workers return, the waiter
    closes ch, main leaves its loop, marshals, writes and finishes. *)
Definition wind_up (n : nat) : list label :=
  map run_worker (seq 0 n) ++ [run_waiter; run_main; run_main; run_main; run_main].

(** Three documents: worker 0 and the last worker share the first page,
    worker 0 takes the second. *)
Definition sched_three (n : nat) : list label :=
  [run_producer] ++ one_hit 0 ++ one_hit (n - 1)
  ++ [run_producer; run_producer; run_producer] ++ one_hit 0
  ++ [run_producer; run_producer; run_producer] ++ wind_up n.

(** One document, handled by worker 4. *)
Definition sched_one : list label :=
  [run_producer] ++ one_hit 4 ++ [run_producer; run_producer; run_producer]
  ++ wind_up 10.

(** No document: the first scroll request ends the scroll. *)
Definition sched_none : list label := [run_producer] ++ wind_up 10.

(** Two documents are collected, then the producer is about to ask for
    the second page. *)
Definition sched_source_error : list label :=
  [run_producer] ++ one_hit 0 ++ one_hit 1 ++ [run_producer; run_producer].

(** Worker 0 receives the first document and fails on it; each of the
    other nine workers then handles one document and finds the context
    cancelled. *)
Definition sched_one_bad_of_eleven : list label :=
  [run_producer; pass_hit 0; run_worker 0] ++ flat_map one_hit (seq 1 9).

(** After a failure: the workers return and g.Wait hands back the error. *)
Definition sched_unwind : list label :=
  map run_worker (seq 0 10) ++ [run_waiter].

(** Up to the join on a query without matches. *)
Definition sched_join : list label :=
  [run_producer] ++ map run_worker (seq 0 10) ++ [run_waiter].

(** The state a schedule leads to (the state itself if the schedule
    cannot be run). *)
Definition after (sched : list label) (s : state) : state :=
  default s (exec sched s).

(** The payloads json.Unmarshal rejects: input that is not well-formed, a
    value that is neither an object nor null, and an object in which some
    member selecting the field Code holds neither a string nor null. *)
Definition rejected (raw : json.RawMessage) : bool :=
  match raw with
  | json.Malformed _ => true
  | json.WellFormed json.Null => false
  | json.WellFormed (json.Object members) => bad_code_member members
  | json.WellFormed _ => true
  end.

(** Failure as the specification words it: the payload is not well-formed,
    or a member named code is present and is not a string. *)
Definition fails_as_claimed (raw : json.RawMessage) : Prop :=
  (∃ bytes, raw = json.Malformed bytes)
  ∨ (∃ members x, raw = json.WellFormed (json.Object members)
                  ∧ ("code", x) ∈ members ∧ ∀ s, x ≠ json.String s).

(** ** A run in which nothing fails *)

(** Nothing has happened yet apart from the producer's progress: the n
    workers wait on hits and nobody has failed. *)
Definition idle (n : nat) (s : state) : Prop :=
  workers s = replicate n W_Range ∧ hits_closed s = false ∧ g_err s = None
  ∧ ctx_done s = false ∧ waiter s = G_Wait ∧ ch_closed s = false
  ∧ main_at s = M_Range ∧ panicked s = None.

(** The schedule in which worker 0 alone handles every hit of a page. *)
Definition sched_hits (hs : list elastic.SearchHit) : list label :=
  flat_map (λ _, one_hit 0) hs.

(** The producer's part of that schedule, page after page up to the end
    of the scroll. *)
Fixpoint sched_scroll (c : elastic.Scroll) : list label :=
  match c with
  | elastic.Page hs :: rest =>
      [run_producer] ++ sched_hits hs ++ [run_producer; run_producer]
      ++ sched_scroll rest
  | _ => [run_producer]
  end.

(** Two states that differ at most in the program counters of the
    workers. *)
Definition same_but_workers (s s' : state) : Prop :=
  producer s' = producer s ∧ hits_closed s' = hits_closed s
  ∧ g_err s' = g_err s ∧ waiter s' = waiter s ∧ ch_closed s' = ch_closed s
  ∧ main_at s' = main_at s ∧ panicked s' = panicked s
  ∧ WriteFile_err s' = WriteFile_err s ∧ written s' = written s.

(** A world in which nothing fails. *)
Definition error_free (w : world) : Prop :=
  NewClient_err w = None ∧ (∃ total, Count_result w = inr total)
  ∧ scroll_end (Scroll_answers w) = io_EOF
  ∧ Forall (λ hit, is_Some (decode hit)) (scrolled_hits (Scroll_answers w))
  ∧ WriteFile_answer w = None.

(** ** How long a run can be *)

(** The steps a goroutine can still take, counted generously: a hit the
    producer has yet to send costs five steps of the worker that will
    receive it. *)
Fixpoint scroll_fuel (c : elastic.Scroll) : nat :=
  match c with
  | [] => 1
  | elastic.Fail _ :: rest => 1 + scroll_fuel rest
  | elastic.Page hs :: rest => 5 * length hs + 3 + scroll_fuel rest
  end.

(** The producer: what is left of its page, of its loop body and of the
    scroll. *)
Definition producer_fuel (p : producer_pc) (c : elastic.Scroll) : nat :=
  match p with
  | P_Do => scroll_fuel c
  | P_Send rest => 5 * length rest + 2 + scroll_fuel c
  | P_Select => 1 + scroll_fuel c
  | P_Returned _ => 0
  end.

(** A worker: what is left of its loop body, and its return. *)
Definition worker_fuel (x : worker_pc) : nat :=
  match x with
  | W_Unmarshal _ => 5
  | W_Send _ _ => 4
  | W_Increment => 3
  | W_Select => 2
  | W_Range => 1
  | W_Returned _ => 0
  end.

(** The waiting goroutine and main. *)
Definition waiter_fuel (g : waiter_pc) : nat :=
  match g with G_Wait => 1 | G_Closed => 0 end.

Definition main_fuel (m : main_pc) : nat :=
  match m with
  | M_Range => 4
  | M_Marshal => 3
  | M_WriteFile _ => 2
  | M_FinishPrint => 1
  | M_Exit => 0
  end.

(** The whole process; a panic ends it. *)
Definition fuel (s : state) : nat :=
  match panicked s with
  | Some _ => 0
  | None =>
      producer_fuel (producer s) (scroll s)
      + sum_list (worker_fuel <$> workers s)
      + waiter_fuel (waiter s) + main_fuel (main_at s)
  end.

(** ** Further notions: the bar, provenance, panics, cancellation *)

(** A worker that has handed its hit to main and has not yet called
    bar.Increment. *)
Definition to_count (x : worker_pc) : nat :=
  match x with
  | W_Increment => 1
  | _ => 0
  end.

(** The total the bar was started with. *)
Definition counted_total (w : world) : Z :=
  match NewClient_err w, Count_result w with
  | None, inr total => total
  | _, _ => 0%Z
  end.

(** The bar and the collected records. *)
Definition bar_inv (w : world) (s : state) : Prop :=
  bar_current s + sum_list (to_count <$> workers s) = len (data s)
  ∧ bar_total s = counted_total w.

(** What main has collected and what is still on its way is part of what
    the pages hold, whether or not the run has failed. *)
Definition provenance (w : world) (s : state) : Prop :=
  ∃ collected,
    slice_elems (data s) = map decoded collected
    ∧ Forall (λ hit, is_Some (decode hit)) collected
    ∧ collected ++ (workers s ≫= in_flight) ++ to_send s
        ⊆+ scrolled_hits (Scroll_answers w).

(** The panic value of a nil pointer dereference. *)
Definition nil_dereference : error := remote_error "nil pointer dereference".

(** Where a panic can come from. *)
Inductive panic_origin : Type :=
| from_NewClient
| from_Count
| from_Wait
| from_WriteFile
| from_nil_Source.

Definition panics_from (n : nat) (w : world) (s : state) (e : error)
    (o : panic_origin) : Prop :=
  match o with
  | from_NewClient => s = start n w ∧ NewClient_err w = Some e
  | from_Count =>
      s = start n w ∧ NewClient_err w = None ∧ Count_result w = inl e
  | from_Wait =>
      g_err s = Some e ∧ all_returned s = true ∧ main_at s = M_Range
  | from_WriteFile =>
      WriteFile_answer w = Some e ∧ g_err s = None
      ∧ ∃ j, main_at s = M_WriteFile j
  | from_nil_Source =>
      e = nil_dereference ∧ main_at s = M_Range
      ∧ ∃ i hit, workers s !! i = Some (W_Unmarshal hit)
                 ∧ elastic.Source hit = None
  end.

(** The disk is full: the query matches nothing and the write fails. *)
Definition world_disk_full : world :=
  mkWorld None (inr 0%Z) [elastic.Fail io_EOF] (Some (remote_error "disk full")).

(** Up to the call of ioutil.WriteFile on a query without matches. *)
Definition sched_write : list label := sched_join ++ [run_main; run_main; run_main].

(** The error is the one that ended the scroll, or the one json.Unmarshal
    returns for the _source of some hit of the pages. *)
Definition root_cause (w : world) (e : error) : Prop :=
  (e = scroll_end (Scroll_answers w) ∧ e ≠ io_EOF)
  ∨ ∃ hit raw, hit ∈ scrolled_hits (Scroll_answers w)
               ∧ elastic.Source hit = Some raw
               ∧ (json.Unmarshal raw (mkSource "")).2 = Some e.

(** The producer has a hit to send and every worker has returned. *)
Definition stranded (s : state) : Prop :=
  panicked s = None
  ∧ forallb worker_returned (workers s) = true
  ∧ ∃ hit rest, producer s = P_Send (hit :: rest).

(** The hits of one answer of the cursor. *)
Definition page_hits (r : elastic.DoResult) : list elastic.SearchHit :=
  match r with
  | elastic.Page hs => hs
  | elastic.Fail _ => []
  end.

(** A bound on the number of steps of a run: five for every hit the
    cursor holds, three for every answer, one for every worker, and six
    for the rest. *)
Definition step_bound (n : nat) (w : world) : nat :=
  5 * length (Scroll_answers w ≫= page_hits) + 3 * length (Scroll_answers w)
  + n + 6.

(** A worker that may still hand a record to main once the context is
    cancelled: it has not yet reached its check of the context. *)
Definition may_deliver (x : worker_pc) : nat :=
  match x with
  | W_Range | W_Unmarshal _ | W_Send _ _ => 1
  | _ => 0
  end.

(** The producer may still call scroll.Do once the context is
    cancelled. *)
Definition may_request (p : producer_pc) : nat :=
  match p with
  | P_Do => 1
  | _ => 0
  end.

(** The scroll ends with an error other than io.EOF, or yields a hit
    that does not decode. *)
Definition failing (w : world) : Prop :=
  scroll_end (Scroll_answers w) ≠ io_EOF
  ∨ Exists (λ hit, decode hit = None) (scrolled_hits (Scroll_answers w)).

(** The first of eleven documents has failed in worker 0. *)
Definition sched_first_fails : list label := [run_producer; pass_hit 0; run_worker 0].

(** The strings an object offers for the field Code, in document order:
    the values of the members whose key selects the field and whose value
    is a string. *)
Definition code_values (members : list (string * json.value)) : list string :=
  omap (λ kv,
          if json.field_matches "code" kv.1
          then match kv.2 with
               | json.String s => Some s
               | _ => None
               end
          else None) members.

(** A document with a null, two spellings of the key and another member. *)
Definition hit_twice : elastic.SearchHit :=
  elastic.mkSearchHit "7"
    (Some (json.WellFormed
             (json.Object [("code", json.String "x"); ("name", json.Number "1");
                           ("CODE", json.String "y"); ("Code", json.Null)]))).

(** * Proofs *)

(** ** Lists of goroutines *)

(** The hits held by a list of workers, with worker i taken out and with
    worker i replaced. *)
Lemma bind_lookup_perm {A B} (f : A → list B) (l : list A) i x :
  l !! i = Some x → l ≫= f ≡ₚ f x ++ (delete i l ≫= f).
Proof.
  intros Hi. rewrite (delete_Permutation l i x Hi) at 1. by rewrite bind_cons.
Qed.

Lemma bind_insert_perm {A B} (f : A → list B) (l : list A) i x y :
  l !! i = Some x → <[i:=y]> l ≫= f ≡ₚ f y ++ (delete i l ≫= f).
Proof.
  intros Hi. pose proof (lookup_lt_Some _ _ _ Hi) as Hlt.
  rewrite insert_take_drop, delete_take_drop by done.
  rewrite !bind_app, bind_cons. by rewrite Permutation_app_swap_app.
Qed.

(** When the wait group is at zero every worker has returned. *)
Lemma all_returned_worker s i x :
  all_returned s = true → workers s !! i = Some x → worker_returned x = true.
Proof.
  unfold all_returned. intros [_ H]%andb_true_iff Hi.
  rewrite forallb_forall in H. apply H. apply list_elem_of_In.
  by eapply list_elem_of_lookup_2.
Qed.

(** Replacing a worker keeps the decoded value of every sending worker
    right, provided the new worker's is. *)
Lemma send_insert (ws : list worker_pc) i x :
  (∀ j hit p, ws !! j = Some (W_Send hit p) → decode hit = Some p) →
  (∀ hit p, x = W_Send hit p → decode hit = Some p) →
  ∀ j hit p, <[i:=x]> ws !! j = Some (W_Send hit p) → decode hit = Some p.
Proof.
  intros Hws Hx j hit p [(_ & -> & _)|[_ Hj]]%list_lookup_insert_Some; eauto.
Qed.

(** Conservation of hits when worker i moves from x to y, the producer's
    pending hits change from T to T' and main collects [extra]. *)
Lemma flow_move (H0 collected extra T T' : list elastic.SearchHit)
    (ws : list worker_pc) i x y :
  ws !! i = Some x →
  in_flight x ++ T ≡ₚ extra ++ in_flight y ++ T' →
  H0 ≡ₚ collected ++ (ws ≫= in_flight) ++ T →
  H0 ≡ₚ (collected ++ extra) ++ (<[i:=y]> ws ≫= in_flight) ++ T'.
Proof.
  intros Hi Hmove ->.
  rewrite (bind_lookup_perm in_flight ws i x Hi).
  rewrite (bind_insert_perm in_flight ws i x y Hi).
  rewrite <- !(assoc_L (++)).
  apply Permutation_app_head.
  rewrite (Permutation_app_swap_app (in_flight x)).
  rewrite (Permutation_app_swap_app (in_flight y)).
  rewrite (Permutation_app_swap_app extra).
  apply Permutation_app_head. rewrite Hmove. done.
Qed.

Lemma flow_keep (H0 collected T T' : list elastic.SearchHit)
    (ws : list worker_pc) i x y :
  ws !! i = Some x →
  in_flight x ++ T ≡ₚ in_flight y ++ T' →
  H0 ≡ₚ collected ++ (ws ≫= in_flight) ++ T →
  H0 ≡ₚ collected ++ (<[i:=y]> ws ≫= in_flight) ++ T'.
Proof.
  intros Hi Hmove Hflow.
  rewrite <- (app_nil_r collected) at 1.
  by apply (flow_move H0 collected [] T T' ws i x y).
Qed.

(** ** The invariants hold along every run *)

Create HintDb pipeline.

Section Preservation.

Context (w : world).

(** The invariants hold when main reaches its loop. *)
Lemma inv_start n : inv w (start n w).
Proof.
  assert (Hbind : ∀ k, replicate k W_Range ≫= in_flight = []).
  { induction k as [|k IH]; [done|].
    change (replicate (S k) W_Range) with (W_Range :: replicate k W_Range).
    by rewrite bind_cons, IH. }
  assert (Hlook : ∀ k i hit p, replicate k W_Range !! i ≠ Some (W_Send hit p)).
  { intros k i hit p [? _]%lookup_replicate. done. }
  unfold start.
  destruct (NewClient_err w) as [e|]; [|destruct (Count_result w) as [e|total]];
    (split; simpl; try done).
  all: try (split; [intros [=]|intros [[? [=]]|[=]]]).
  all: try (intros _; exists []; repeat split; [constructor|];
            unfold to_send; simpl; rewrite ?Hbind; simpl; done).
  intros i hit p H. by apply Hlook in H.
Qed.

(** While some stage of the group is running, the waiter is inside g.Wait,
    ch is open and main is in its loop over ch. *)
Lemma waiting_while_running s :
  inv w s → all_returned s = false →
  waiter s = G_Wait ∧ ch_closed s = false ∧ main_at s = M_Range.
Proof.
  intros Hinv Hrun.
  assert (Hw : waiter s = G_Wait).
  { destruct (waiter s) eqn:E; [done|].
    apply (inv_closed _ _ Hinv) in E as (_ & E & _). congruence. }
  assert (Hc : ch_closed s = false).
  { destruct (ch_closed s) eqn:E; [|done].
    apply (inv_ch _ _ Hinv) in E. congruence. }
  repeat split; [done..|].
  destruct (main_at s) eqn:E; [done|..];
    (assert (Hm : main_at s ≠ M_Range) by congruence;
     apply (inv_main _ _ Hinv) in Hm; congruence).
Qed.

Ltac inv_goals :=
  split; unfold all_returned, to_send; simpl; try done; try congruence;
  try (by split; eauto);
  try match goal with H : main_at _ = M_Range |- _ => by rewrite H in * end.

(** Each kind of step preserves the invariants. *)
Lemma inv_step_producer s s' :
  inv w s → step_producer s = Some s' → inv w s'.
Proof.
  intros Hinv Hstep.
  assert (Hrun : all_returned s = false).
  { unfold all_returned. unfold step_producer in Hstep.
    by destruct (producer s) as [|[|]| |]. }
  destruct (waiting_while_running _ Hinv Hrun) as (Hwa & Hcc & Hma).
  destruct Hinv
    as [Hhits Hch Hclosed Hmain Hjson Hwritten Hctx Hend Hsend Hnil Hflow].
  unfold step_producer, producer_return, errgroup_returned, elastic.Do in Hstep.
  unfold to_send in Hflow.
  destruct (producer s) as [|[|hit rest]| |r0] eqn:Hp; try done; simpl in *.
  - destruct (scroll s) as [|[hs|e] c] eqn:Hsc; simpl in *.
    + simplify_eq. inv_goals. intros Hg. by rewrite <- (Hend Hg).
    + simplify_eq. inv_goals.
    + destruct (decide (e = io_EOF)) as [->|Hne].
      * simplify_eq. inv_goals. intros Hg. by rewrite <- (Hend Hg).
      * destruct (g_err s) eqn:Hg; simplify_eq; inv_goals.
  - simplify_eq. inv_goals.
  - destruct (ctx_done s) eqn:Hcd; [destruct (g_err s) eqn:Hg|];
      simplify_eq; inv_goals.
Qed.

(** A worker that has not returned keeps the wait group above zero. *)
Lemma running_worker s i x :
  workers s !! i = Some x → worker_returned x = false → all_returned s = false.
Proof.
  intros Hi Hx. destruct (all_returned s) eqn:E; [|done].
  rewrite (all_returned_worker _ _ _ E Hi) in Hx. done.
Qed.

Lemma inv_step_hits s s' i :
  inv w s → step_hits i s = Some s' → inv w s'.
Proof.
  intros Hinv Hstep. unfold step_hits in Hstep.
  destruct (producer s) as [|[|hit rest]| |r0] eqn:Hp; try done.
  destruct (workers s !! i) as [[]|] eqn:Hi; try done. simplify_eq.
  assert (Hrun : all_returned s = false) by (by eapply running_worker).
  destruct (waiting_while_running _ Hinv Hrun) as (Hwa & Hcc & Hma).
  destruct Hinv
    as [Hhits Hch Hclosed Hmain Hjson Hwritten Hctx Hend Hsend Hnil Hflow].
  unfold to_send in Hflow. rewrite Hp in *.
  inv_goals.
  - apply send_insert; [done|]. intros ?? [=].
  - intros Hg. destruct (Hflow Hg) as (collected & Hd & Hall & Hperm).
    exists collected. repeat split; [done..|].
    eapply flow_keep; [exact Hi| |exact Hperm]. done.
Qed.

Ltac send_tac := apply send_insert; [done|]; intros ?? [=]; subst; try done.

Ltac flow_tac Hflow Hi :=
  let Hg := fresh "Hg" in
  intros Hg; destruct (Hflow Hg) as (collected & Hd & Hall & Hperm);
  exists collected; repeat split; [done..|];
  eapply flow_keep; [exact Hi| |exact Hperm]; done.

Lemma inv_step_worker s s' i :
  inv w s → step_worker i s = Some s' → inv w s'.
Proof.
  intros Hinv Hstep.
  unfold step_worker, worker_return, errgroup_returned in Hstep.
  destruct (workers s !! i) as [x|] eqn:Hi; [|done].
  assert (Hrun : all_returned s = false).
  { eapply running_worker; [done|]. by destruct x. }
  destruct (waiting_while_running _ Hinv Hrun) as (Hwa & Hcc & Hma).
  destruct Hinv
    as [Hhits Hch Hclosed Hmain Hjson Hwritten Hctx Hend Hsend Hnil Hflow].
  unfold to_send in Hflow.
  destruct x as [|hit|hit p| | |r0]; try done; simpl in *.
  - destruct (hits_closed s) eqn:Hhc; [|done]. simplify_eq. inv_goals.
    + send_tac.
    + flow_tac Hflow Hi.
  - destruct (elastic.Source hit) as [raw|] eqn:Hsrc.
    + destruct (json.Unmarshal raw (mkSource "")) as [p [e|]] eqn:Hdec.
      * destruct (g_err s) eqn:Hg; simplify_eq; inv_goals; try send_tac.
      * simplify_eq; inv_goals.
        -- apply send_insert; [done|]. intros ?? [=]; subst.
           unfold decode. by rewrite Hsrc, Hdec.
        -- flow_tac Hflow Hi.
    + simplify_eq. inv_goals.
  - simplify_eq. inv_goals; [send_tac|flow_tac Hflow Hi].
  - destruct (ctx_done s) eqn:Hcd; [destruct (g_err s) eqn:Hg|]; simplify_eq;
      inv_goals; try send_tac; try flow_tac Hflow Hi.
Qed.

Lemma inv_step_ch s s' i :
  inv w s → step_ch i s = Some s' → inv w s'.
Proof.
  intros Hinv Hstep. unfold step_ch in Hstep.
  destruct (main_at s) eqn:Hma; try done.
  destruct (workers s !! i) as [[|hit|hit p| | |r0]|] eqn:Hi; try done.
  simplify_eq.
  assert (Hrun : all_returned s = false) by (by eapply running_worker).
  destruct (waiting_while_running _ Hinv Hrun) as (Hwa & Hcc & _).
  destruct Hinv
    as [Hhits Hch Hclosed Hmain Hjson Hwritten Hctx Hend Hsend Hnil Hflow].
  unfold to_send in Hflow.
  inv_goals; try send_tac.
  - intros H. by apply app_nil in H as [_ [=]].
  - intros Hg. destruct (Hflow Hg) as (collected & Hd & Hall & Hperm).
    pose proof (Hsend _ _ _ Hi) as Hdec.
    exists (collected ++ [hit]). split; [|split].
    + rewrite map_app, Hd. simpl. unfold decoded. by rewrite Hdec.
    + apply Forall_app. split; [done|]. repeat constructor. by rewrite Hdec.
    + eapply flow_move; [exact Hi| |exact Hperm]. done.
Qed.

Lemma inv_step_waiter s s' :
  inv w s → step_waiter s = Some s' → inv w s'.
Proof.
  intros Hinv Hstep. unfold step_waiter in Hstep.
  destruct (waiter s) eqn:Hwa; [|done].
  destruct (all_returned s) eqn:Hall; [|done].
  destruct Hinv
    as [Hhits Hch Hclosed Hmain Hjson Hwritten Hctx Hend Hsend Hnil Hflow].
  assert (Hcc : ch_closed s = false).
  { destruct (ch_closed s); [|done]. specialize (Hch eq_refl). congruence. }
  assert (Hma : main_at s = M_Range).
  { destruct (main_at s) eqn:E; [done|..];
      (assert (ch_closed s = true) by (by apply Hmain); congruence). }
  destruct (g_err s) eqn:Hg; simplify_eq; inv_goals.
Qed.

Lemma inv_step_main s s' :
  inv w s → panicked s = None → step_main s = Some s' → inv w s'.
Proof.
  intros Hinv Hpa Hstep. unfold step_main in Hstep.
  destruct Hinv
    as [Hhits Hch Hclosed Hmain Hjson Hwritten Hctx Hend Hsend Hnil Hflow].
  unfold to_send in Hflow.
  destruct (main_at s) as [| |j| |] eqn:Hma; try done.
  - assert (Hcc : ch_closed s = true) by (by destruct (ch_closed s)).
    rewrite Hcc in Hstep. simplify_eq. inv_goals.
  - simplify_eq. inv_goals.
    + intros _. by apply Hmain.
    + by rewrite Hpa.
  - rewrite Hpa in *.
    destruct (WriteFile_err s) eqn:Hwe; simplify_eq; inv_goals.
    all: try (intros _; by apply Hmain).
    all: rewrite ?Hma, ?Hwritten; simpl; try done.
    all: try (by intros ? [= <-]; apply Hjson).
    all: try by rewrite (Hjson j eq_refl).
  - simplify_eq. inv_goals.
    intros _. by apply Hmain.
Qed.

#[local] Hint Resolve inv_step_producer inv_step_hits inv_step_worker
  inv_step_ch inv_step_waiter : pipeline.

Lemma inv_step s s' l :
  inv w s → step l s = Some s' → inv w s'.
Proof.
  intros Hinv Hstep. unfold step in Hstep.
  destruct (panicked s) eqn:Hpa; [done|].
  destruct l; destruct (main_at s) eqn:Hma; try done;
    eauto with pipeline.
  all: eapply inv_step_main; [done..|]; by rewrite ?Hma.
Qed.

Lemma inv_exec sched :
  ∀ s s', inv w s → exec sched s = Some s' → inv w s'.
Proof.
  induction sched as [|l sched IH]; intros s s' Hinv Hexec; simpl in Hexec.
  - by simplify_eq.
  - destruct (step l s) as [s1|] eqn:Hstep; [|done].
    eapply IH; [|done]. by eapply inv_step.
Qed.

(** Hence they hold in every state a run can reach. *)
Lemma inv_reachable n s : reachable n w s → inv w s.
Proof. intros [sched Hexec]. eapply inv_exec; [apply inv_start|done]. Qed.

End Preservation.

(** ** Consequences of the invariants *)

(** Workers that have returned hold no hit. *)
Lemma returned_in_flight (ws : list worker_pc) :
  forallb worker_returned ws = true → ws ≫= in_flight = [].
Proof.
  induction ws as [|x ws IH]; [done|].
  intros Hall. rewrite bind_cons. simpl in Hall.
  apply andb_true_iff in Hall as [Hx Hws]. rewrite (IH Hws).
  by destruct x.
Qed.

(** Once main has left its loop over ch, every hit of every page has been
    decoded and collected, and the cursor has ended with io.EOF. *)
Lemma collected_all n w s :
  reachable n w s → main_at s ≠ M_Range →
  g_err s = None
  ∧ scroll_end (Scroll_answers w) = io_EOF
  ∧ Forall (λ hit, is_Some (decode hit)) (scrolled_hits (Scroll_answers w))
  ∧ slice_elems (data s) ≡ₚ map decoded (scrolled_hits (Scroll_answers w)).
Proof.
  intros Hinv%inv_reachable Hma.
  pose proof (inv_main _ _ Hinv Hma) as Hcc.
  pose proof (inv_ch _ _ Hinv Hcc) as Hwa.
  destruct (inv_closed _ _ Hinv Hwa) as (_ & Hall & Hg).
  unfold all_returned in Hall. apply andb_true_iff in Hall as [Hp Hws].
  pose proof (inv_end _ _ Hinv Hg) as Hend. rewrite Hp in Hend.
  destruct (inv_flow _ _ Hinv Hg) as (collected & Hd & Hdec & Hperm).
  unfold to_send in Hperm. rewrite (returned_in_flight _ Hws) in Hperm.
  destruct (producer s); try done. simpl in Hperm. rewrite app_nil_r in Hperm.
  repeat split; [done..| |].
  - by rewrite Hperm.
  - by rewrite Hd, Hperm.
Qed.

(** Decoding keeps the identifier. *)
Lemma ids_decoded (hits : list elastic.SearchHit) :
  ids (map decoded hits) = map elastic.Id hits.
Proof. unfold ids. rewrite map_map. done. Qed.

(** The identifiers main has collected when it leaves its loop are those
    of the pages, in some order. *)
Lemma collected_ids n w s :
  reachable n w s → main_at s ≠ M_Range →
  ids (slice_elems (data s)) ≡ₚ map elastic.Id (scrolled_hits (Scroll_answers w)).
Proof.
  intros Hreach Hma.
  destruct (collected_all n w s Hreach Hma) as (_ & _ & _ & Hperm).
  rewrite <- ids_decoded. unfold ids. by rewrite Hperm.
Qed.

(** C1 (amended): in every run that ends with data.json written, the final
    data holds as many records as the pages of the cursor held hits, it is
    a rearrangement of those hits decoded, and its identifiers are a
    rearrangement of the identifiers on the pages: none is lost, none is
    added, and none occurs twice unless the pages repeat it.  The number
    equals the result of Count whenever Count agrees with the pages. *)
Theorem result_set_matches_pages n w s :
  reachable n w s → succeeded s →
  let hits := scrolled_hits (Scroll_answers w) in
  len (data s) = length hits
  ∧ slice_elems (data s) ≡ₚ map decoded hits
  ∧ ids (slice_elems (data s)) ≡ₚ map elastic.Id hits
  ∧ (∀ id, id ∈ ids (slice_elems (data s)) ↔ id ∈ map elastic.Id hits)
  ∧ (NoDup (map elastic.Id hits) → NoDup (ids (slice_elems (data s))))
  ∧ (Count_result w = inr (Z.of_nat (length hits)) →
     Count_result w = inr (Z.of_nat (len (data s)))).
Proof.
  intros Hreach [Hexit _] hits.
  destruct (collected_all n w s Hreach) as (_ & _ & _ & Hperm); [congruence|].
  fold hits in Hperm.
  assert (Hids : ids (slice_elems (data s)) ≡ₚ map elastic.Id hits).
  { apply (collected_ids n w s Hreach). congruence. }
  assert (Hlen : len (data s) = length hits).
  { unfold len. by rewrite Hperm, length_map. }
  repeat split; try done.
  - by rewrite Hids.
  - by rewrite Hids.
  - by rewrite Hids.
  - by rewrite Hlen.
Qed.

(** The run of [sched_three] on three documents collects a, b and c. *)
Lemma result_set_matches_pages_three :
  ∃ s, exec (sched_three 10) (main world_three) = Some s
       ∧ succeeded s
       ∧ len (data s) = 3
       ∧ ids (slice_elems (data s)) ≡ₚ ["a"; "b"; "c"].
Proof.
  eexists. split; [vm_compute; reflexivity|]. split; [done|].
  match goal with |- context [data ?s] =>
    pose proof (result_set_matches_pages 10 world_three s) as H end.
  simpl in H. destruct H as (Hlen & _ & Hids & _).
  - by exists (sched_three 10).
  - done.
  - done.
Defined.

(** Count reports one document, the scroll yields none, and the run ends
    in success with an empty result. *)
Lemma count_may_differ_from_result_set :
  ∃ s, reachable 10 world_miscount s ∧ succeeded s
       ∧ Count_result world_miscount ≠ inr (Z.of_nat (len (data s))).
Proof.
  eexists. split; [exists sched_none; vm_compute; reflexivity|].
  split; [done|]. simpl. discriminate.
Qed.

(** ** Failure *)

(** The error of the group and the cancellation of its context are never
    taken back. *)
Lemma group_kept l s s' :
  step l s = Some s' →
  (ctx_done s = true → ctx_done s' = true)
  ∧ (∀ e, g_err s = Some e → g_err s' = Some e).
Proof.
  unfold step, step_producer, step_hits, step_worker, step_ch, step_waiter,
    step_main, producer_return, worker_return, errgroup_returned.
  intros Hstep. simpl in Hstep.
  repeat case_match; simplify_eq; simpl in *; split; congruence.
Qed.

(** Once aborted, always aborted. *)
Lemma aborted_step l s s' : aborted s → step l s = Some s' → aborted s'.
Proof.
  intros [[e He]|[[e He] _]] Hstep.
  - left. exists e. by apply (group_kept l s s' Hstep).
  - unfold step in Hstep. by rewrite He in Hstep.
Qed.

Lemma aborted_exec sched :
  ∀ s s', aborted s → exec sched s = Some s' → aborted s'.
Proof.
  induction sched as [|l sched IH]; intros s s' Hab Hexec; simpl in Hexec.
  - by simplify_eq.
  - destruct (step l s) as [s1|] eqn:Hstep; [|done].
    eapply IH; [|done]. by eapply aborted_step.
Qed.

(** Runs can be continued. *)
Lemma reachable_exec n w sched s s' :
  reachable n w s → exec sched s = Some s' → reachable n w s'.
Proof.
  intros [sched0 H0] Hexec. exists (sched0 ++ sched).
  revert H0. generalize (start n w).
  induction sched0 as [|l sched0 IH]; intros s0 H0; simpl in *.
  - by simplify_eq.
  - destruct (step l s0); [by apply IH|done].
Qed.

(** In an aborted run main is still in its loop and nothing has been
    written. *)
Lemma aborted_unwritten n w s :
  reachable n w s → aborted s → main_at s = M_Range ∧ written s = [].
Proof.
  intros Hinv%inv_reachable Hab.
  assert (Hma : main_at s = M_Range).
  { destruct Hab as [[e He]|[_ Hma]]; [|done].
    destruct (main_at s) eqn:Hma; [done|..];
      (assert (Hcc : ch_closed s = true) by (apply (inv_main _ _ Hinv); congruence);
       apply (inv_ch _ _ Hinv) in Hcc; apply (inv_closed _ _ Hinv) in Hcc;
       destruct Hcc as (_ & _ & Hcc); congruence). }
  split; [done|]. rewrite (inv_written _ _ Hinv), Hma. done.
Qed.

(** The step in which the source error is reported, or the hit fails to
    decode, aborts the run. *)
Lemma failing_step_aborts n w s l s' :
  reachable n w s → source_error l s ∨ decode_failure l s →
  step l s = Some s' → aborted s'.
Proof.
  intros Hreach Hfail Hstep.
  unfold step in Hstep. destruct (panicked s) eqn:Hpa; [done|].
  destruct Hfail as [(-> & Hp & e & HDo & Hne)|(i & hit & -> & Hi & Hdec)].
  - left. destruct (main_at s); try done;
      unfold step_producer, producer_return, errgroup_returned in Hstep;
      rewrite Hp in Hstep; destruct (elastic.Do (scroll s)) as [r c];
      simpl in HDo; subst r; destruct (decide (e = io_EOF)); try done;
      simpl in Hstep; destruct (g_err s) eqn:Hg; simplify_eq; simpl; eauto.
  - assert (Hrun : all_returned s = false) by (by eapply running_worker).
    destruct (waiting_while_running _ _ (inv_reachable _ _ _ Hreach) Hrun)
      as (_ & _ & Hma).
    rewrite Hma in Hstep.
    unfold step_worker, worker_return, errgroup_returned, decode in *.
    rewrite Hi in Hstep.
    destruct (elastic.Source hit) as [raw|].
    + destruct (json.Unmarshal raw (mkSource "")) as [p [e|]]; [|done].
      left. simpl in Hstep. destruct (g_err s) eqn:Hg; simplify_eq; simpl; eauto.
    + right. simplify_eq. simpl. eauto.
Qed.

(** C2: as soon as scroll.Do reports an error other than io.EOF, or a
    worker meets a hit that does not decode, nothing the run does
    afterwards calls ioutil.WriteFile: main stays in its loop over ch and
    the run never ends in success, however many hits were decoded before
    or after. *)
Theorem failure_never_persists n w sched1 s1 l s2 sched2 s3 :
  exec sched1 (start n w) = Some s1 →
  source_error l s1 ∨ decode_failure l s1 →
  step l s1 = Some s2 →
  exec sched2 s2 = Some s3 →
  written s1 = [] ∧ written s3 = [] ∧ main_at s3 = M_Range ∧ ¬ succeeded s3.
Proof.
  intros H1 Hfail Hstep H3.
  assert (Hr1 : reachable n w s1) by (by exists sched1).
  assert (Hr3 : reachable n w s3).
  { eapply reachable_exec; [|exact H3].
    eapply (reachable_exec _ _ [l]); [exact Hr1|].
    cbn [exec]. by rewrite Hstep. }
  assert (Hab : aborted s3).
  { eapply aborted_exec; [|exact H3].
    exact (failing_step_aborts n w s1 l s2 Hr1 Hfail Hstep). }
  destruct (aborted_unwritten _ _ _ Hr3 Hab) as [Hma Hwr].
  split; [|repeat split; [done..|]; intros [Hexit _]; congruence].
  pose proof (inv_reachable _ _ _ Hr1) as Hinv1.
  assert (Hrun : all_returned s1 = false).
  { destruct Hfail as [(_ & Hp & _)|(i & hit & _ & Hi & _)].
    - unfold all_returned. by rewrite Hp.
    - by eapply running_worker. }
  destruct (waiting_while_running _ _ Hinv1 Hrun) as (_ & _ & Hma1).
  by rewrite (inv_written _ _ Hinv1), Hma1.
Qed.

(** The second scroll request fails after two hits were collected: the
    run ends in a panic and nothing is written. *)
Lemma failure_never_persists_source_error :
  ∃ s1 s2 s3,
    exec sched_source_error (main world_source_error) = Some s1
    ∧ source_error run_producer s1
    ∧ step run_producer s1 = Some s2
    ∧ exec sched_unwind s2 = Some s3
    ∧ panicked s3 = Some (remote_error "connection refused")
    ∧ written s1 = [] ∧ written s3 = [] ∧ main_at s3 = M_Range ∧ ¬ succeeded s3.
Proof.
  eexists _, _, _.
  split; [vm_compute; reflexivity|].
  split; [split; [done|split; [done|eexists; split; [reflexivity|discriminate]]]|].
  split; [vm_compute; reflexivity|].
  split; [vm_compute; reflexivity|].
  split; [reflexivity|].
  eapply (failure_never_persists 10 world_source_error sched_source_error _
            run_producer _ sched_unwind).
  - vm_compute; reflexivity.
  - left. split; [done|split; [done|eexists; split; [reflexivity|discriminate]]].
  - vm_compute; reflexivity.
  - vm_compute; reflexivity.
Defined.

(** In a world whose scroll ends with an error other than io.EOF, or
    yields a hit that does not decode, no run gets as far as leaving the
    loop over ch, let alone writing data.json. *)
Lemma failing_world_never_persists n w s :
  scroll_end (Scroll_answers w) ≠ io_EOF
  ∨ Exists (λ hit, decode hit = None) (scrolled_hits (Scroll_answers w)) →
  reachable n w s →
  main_at s = M_Range ∧ written s = [] ∧ ¬ succeeded s.
Proof.
  intros Hfail Hreach.
  assert (Hma : main_at s = M_Range).
  { destruct (main_at s) eqn:Hma; [done|..];
      (destruct (collected_all n w s Hreach) as (_ & Hend & Hdec & _);
       [congruence|]);
      (destruct Hfail as [Hfail|Hfail]; [done|];
       apply Exists_exists in Hfail as (hit & Hin & Hnone);
       rewrite Forall_forall in Hdec; destruct (Hdec hit Hin) as [p Hp];
       congruence). }
  pose proof (inv_written _ _ (inv_reachable _ _ _ Hreach)) as Hwr.
  rewrite Hma in Hwr. repeat split; [done..|]. intros [Hexit _]. congruence.
Qed.

(** ** The artifact *)

(** C3: what main.go does when no document matches.  The final data is
    empty, but it is the nil slice, and the content handed to
    ioutil.WriteFile is the JSON value null, not an array without
    elements. *)
Theorem empty_result_set_written_as_null n w s :
  reachable n w s → succeeded s →
  scrolled_hits (Scroll_answers w) = [] →
  len (data s) = 0 ∧ data s = nil_slice
  ∧ written s = [json.Null] ∧ written s ≠ [json.Array []].
Proof.
  intros Hreach [Hexit _] Hnone.
  destruct (collected_all n w s Hreach) as (_ & _ & _ & Hperm); [congruence|].
  rewrite Hnone in Hperm. apply Permutation_nil_r in Hperm.
  pose proof (inv_reachable _ _ _ Hreach) as Hinv.
  pose proof (inv_nil _ _ Hinv Hperm) as Hnil.
  pose proof (inv_written _ _ Hinv) as Hwr. rewrite Hexit, Hnil in Hwr.
  unfold len. rewrite Hperm, Hwr. done.
Qed.

(** The run of main.go on a query without matches writes null. *)
Lemma empty_result_set_written_as_null_run :
  ∃ s, exec sched_none (main world_none) = Some s
       ∧ succeeded s
       ∧ len (data s) = 0 ∧ data s = nil_slice
       ∧ written s = [json.Null] ∧ written s ≠ [json.Array []].
Proof.
  eexists. split; [vm_compute; reflexivity|]. split; [done|].
  apply (empty_result_set_written_as_null 10 world_none).
  - by exists sched_none.
  - done.
  - done.
Defined.

(** The members of the object written for a Hit. *)
Lemma Marshal_Hit_fields (h : Hit) :
  object_with_fields ["code"; "ID"] (json.Marshal_Hit h).
Proof. by eexists. Qed.

(** C4 (amended): ioutil.WriteFile is called at most once in any run and
    exactly once in a run that ends in success, with json.Marshal of the
    final data.  When the pages held at least one hit, that content is an
    array with one object per hit, each object having exactly the two
    members code and ID, in this order: code is the decoded string, ID the
    identifier of the hit. *)
Theorem artifact_written_once n w s :
  reachable n w s →
  (length (written s) ≤ 1)%nat
  ∧ (succeeded s →
     let hits := scrolled_hits (Scroll_answers w) in
     written s = [json.Marshal (data s)]
     ∧ (hits ≠ [] →
        ∃ l, data s = mk_slice l
             ∧ l ≡ₚ map decoded hits
             ∧ written s = [json.Array (map json.Marshal_Hit l)]
             ∧ Forall (object_with_fields ["code"; "ID"]) (map json.Marshal_Hit l)
             ∧ Forall (λ h, ∃ hit p, hit ∈ hits ∧ decode hit = Some p
                           ∧ json.Marshal_Hit h
                             = json.Object [("code", json.String (Code p));
                                            ("ID", json.String (elastic.Id hit))]) l)).
Proof.
  intros Hreach. pose proof (inv_reachable _ _ _ Hreach) as Hinv. split.
  - rewrite (inv_written _ _ Hinv).
    destruct (main_at s); [| |destruct (panicked s)|..]; simpl; lia.
  - intros [Hexit _] hits.
    pose proof (inv_written _ _ Hinv) as Hwr. rewrite Hexit in Hwr.
    split; [done|]. intros Hne.
    destruct (collected_all n w s Hreach) as (_ & _ & Hdec & Hperm); [congruence|].
    fold hits in Hdec, Hperm.
    destruct (data s) as [|l] eqn:Hd.
    { simpl in Hperm. symmetry in Hperm. apply Permutation_nil_r in Hperm.
      by destruct hits. }
    exists l. simpl in Hperm. repeat split; [done..| |].
    + apply Forall_forall. intros o (h & -> & _)%list_elem_of_fmap.
      apply Marshal_Hit_fields.
    + apply Forall_forall. intros h Hh. rewrite Hperm in Hh.
      apply list_elem_of_fmap in Hh as (hit & -> & Hhit).
      rewrite Forall_forall in Hdec. destruct (Hdec hit Hhit) as [p Hp].
      exists hit, p. repeat split; [done..|].
      unfold json.Marshal_Hit, decoded. by rewrite Hp.
Qed.

(** What the run on three documents writes. *)
Lemma artifact_written_once_three :
  ∃ s, exec (sched_three 10) (main world_three) = Some s
       ∧ succeeded s
       ∧ written s
         = [json.Array
              [json.Object [("code", json.String "x"); ("ID", json.String "a")];
               json.Object [("code", json.String "y"); ("ID", json.String "b")];
               json.Object [("code", json.String "z"); ("ID", json.String "c")]]].
Proof.
  eexists. split; [vm_compute; reflexivity|]. split; [done|].
  match goal with |- context [written ?s] =>
    pose proof (artifact_written_once 10 world_three s) as H end.
  destruct H as [_ H]; [by exists (sched_three 10)|].
  destruct (H (conj eq_refl eq_refl)) as [Hwr _]. exact Hwr.
Defined.

(** The object written for a hit has no member named id. *)
Lemma artifact_has_no_id_field :
  ∃ s, reachable 10 world_one s ∧ succeeded s
       ∧ ∀ v, v ∈ written s → ¬ array_of_objects_with ["id"; "code"] v.
Proof.
  eexists. split; [exists sched_one; vm_compute; reflexivity|].
  split; [done|]. simpl.
  intros v ->%list_elem_of_singleton (objs & [= <-] & Hobjs).
  apply Forall_cons_1 in Hobjs as [(members & [= <-] & Hperm) _]. simpl in Hperm.
  assert (Hin : "ID" ∈ ["id"; "code"]).
  { rewrite <- Hperm. apply list_elem_of_further, list_elem_of_here. }
  apply list_elem_of_In in Hin. simpl in Hin. by destruct Hin as [[=]|[[=]|[]]].
Qed.

(** ** The producer *)

Ltac exit_tac :=
  simpl;
  repeat match goal with
         | |- _ ∧ _ => split
         | |- _ ↔ _ => split
         | |- ∀ _, _ => intro
         end;
  destruct_and?; simplify_eq; try done; try congruence.

(** C5: the producer returns nil exactly when scroll.Do answers io.EOF,
    it returns the error when scroll.Do answers any other error, and
    whenever it returns, with or without error, the channel hits is closed
    (and hits is closed only then).  A worker waiting on hits returns nil
    once hits is closed and cannot move before. *)
Theorem producer_exit_paths n w s :
  reachable n w s →
  (hits_closed s = true ↔ ∃ r, producer s = P_Returned r)
  ∧ (∀ s', step_producer s = Some s' →
       (producer s' = P_Returned None
        ↔ producer s = P_Do ∧ (elastic.Do (scroll s)).1 = elastic.Fail io_EOF)
       ∧ (∀ e, producer s = P_Do → (elastic.Do (scroll s)).1 = elastic.Fail e →
               e ≠ io_EOF → producer s' = P_Returned (Some e))
       ∧ (∀ r, producer s' = P_Returned r → hits_closed s' = true))
  ∧ (∀ e, producer s = P_Do → (elastic.Do (scroll s)).1 = elastic.Fail e →
          ∃ s', step_producer s = Some s'
                ∧ producer s' = P_Returned (if decide (e = io_EOF) then None else Some e)
                ∧ hits_closed s' = true)
  ∧ (∀ i, workers s !! i = Some W_Range →
          step_worker i s
          = if hits_closed s then Some (worker_return i None s) else None).
Proof.
  intros Hinv%inv_reachable. split; [|split; [|split]].
  - rewrite (inv_hits _ _ Hinv). destruct (producer s); simpl; split;
      try done; eauto; by intros [? [=]].
  - intros s' Hstep.
    unfold step_producer, producer_return, errgroup_returned in Hstep.
    destruct (producer s) as [|[|hit rest]| |r0] eqn:Hp; try done.
    + destruct (elastic.Do (scroll s)) as [[hs|e] c]; simpl in *.
      * simplify_eq. exit_tac.
      * destruct (decide (e = io_EOF)) as [->|Hne]; simplify_eq.
        -- exit_tac.
        -- destruct (g_err s); exit_tac.
    + simplify_eq. exit_tac.
    + simpl in Hstep. destruct (ctx_done s), (g_err s); simplify_eq; exit_tac.
  - intros e Hp HDo. unfold step_producer, producer_return, errgroup_returned.
    rewrite Hp. destruct (elastic.Do (scroll s)) as [r c]. simpl in HDo. subst r.
    destruct (decide (e = io_EOF)); simpl; [by eexists|].
    destruct (g_err s); by eexists.
  - intros i Hi. unfold step_worker. by rewrite Hi.
Qed.

(** On a query without matches the first step of the producer returns nil
    and closes hits. *)
Lemma producer_exit_paths_none :
  reachable 10 world_none (main world_none)
  ∧ ∃ s', step_producer (main world_none) = Some s'
          ∧ producer s' = P_Returned None ∧ hits_closed s' = true.
Proof.
  assert (Hreach : reachable 10 world_none (main world_none)) by (by exists []).
  split; [exact Hreach|].
  destruct (producer_exit_paths 10 world_none (main world_none) Hreach)
    as (_ & _ & H & _).
  exact (H io_EOF eq_refl eq_refl).
Defined.

(** ** The errgroup and its context *)

(** What the group holds after a stage has returned an error. *)
Lemma stage_returns_group l s s' e :
  (is_Some (g_err s) → ctx_done s = true) →
  step l s = Some s' → stage_returns l s s' (Some e) →
  ctx_done s' = true ∧ g_err s' = Some (default e (g_err s)).
Proof.
  unfold step. intros Hctx Hstep Hret.
  destruct (panicked s); [done|].
  destruct l as [|i|i|i| |]; try done; simpl in Hret.
  - destruct Hret as [Hrun Hp'].
    unfold step_producer, producer_return, errgroup_returned in Hstep.
    simpl in Hstep.
    destruct (main_at s); try done;
      repeat case_match; simplify_eq; simpl in *; simplify_eq; eauto.
  - destruct Hret as [(x & Hi & Hrun) Hi'].
    pose proof (lookup_lt_Some _ _ _ Hi) as Hlt.
    unfold step_worker, worker_return, errgroup_returned in Hstep.
    rewrite Hi in Hstep. simpl in Hstep.
    destruct (main_at s); try done;
      repeat case_match; simplify_eq; simpl in *;
      rewrite ?list_lookup_insert_eq in Hi' by done; simplify_eq; eauto.
Qed.

(** C6: the context starts not cancelled and the group without error; no
    step takes a cancellation or a stored error back; while some stage is
    still running the context is cancelled only if some stage has failed;
    and when a stage returns a failure the context is cancelled and the
    group holds the error it held before, or this one if it held none. *)
Theorem cancellation_first_error_wins n w :
  (ctx_done (start n w) = false ∧ g_err (start n w) = None)
  ∧ (∀ l s s', step l s = Some s' →
       (ctx_done s = true → ctx_done s' = true)
       ∧ (∀ e, g_err s = Some e → g_err s' = Some e))
  ∧ (∀ s, reachable n w s →
       (is_Some (g_err s) → ctx_done s = true)
       ∧ (ctx_done s = true → is_Some (g_err s) ∨ all_returned s = true)
       ∧ (∀ l s' e, step l s = Some s' → stage_returns l s s' (Some e) →
            ctx_done s' = true ∧ g_err s' = Some (default e (g_err s)))).
Proof.
  split; [|split].
  - unfold start. by destruct (NewClient_err w), (Count_result w).
  - intros l s s' Hstep. apply (group_kept l s s' Hstep).
  - intros s Hinv%inv_reachable.
    assert (Hset : is_Some (g_err s) → ctx_done s = true).
    { intros Hg. apply (inv_ctx _ _ Hinv). by left. }
    split; [done|]. split.
    + intros [Hg|Hwa]%(inv_ctx _ _ Hinv); [by left|right].
      by apply (inv_closed _ _ Hinv).
    + intros l s' e. by apply stage_returns_group.
Qed.

(** Two workers fail one after the other: the group keeps the error of
    the first. *)
Lemma cancellation_first_error_wins_two_failures :
  let s1 := after [run_producer; pass_hit 0; pass_hit 1] (main world_two_failures) in
  let s2 := after [run_worker 1] s1 in
  let s3 := after [run_worker 0] s2 in
  reachable 10 world_two_failures s1
  ∧ step (run_worker 1) s1 = Some s2
  ∧ step (run_worker 0) s2 = Some s3
  ∧ workers s3 !! 0 = Some (W_Returned (Some (UnmarshalTypeError "number")))
  ∧ (g_err s1 = None ∧ ctx_done s1 = false)
  ∧ (ctx_done s2 = true ∧ g_err s2 = Some (UnmarshalTypeError "bool"))
  ∧ (ctx_done s3 = true ∧ g_err s3 = Some (UnmarshalTypeError "bool")).
Proof.
  intros s1 s2 s3.
  assert (Hr1 : reachable 10 world_two_failures s1).
  { exists [run_producer; pass_hit 0; pass_hit 1]. vm_compute; reflexivity. }
  assert (Hr2 : reachable 10 world_two_failures s2).
  { exists [run_producer; pass_hit 0; pass_hit 1; run_worker 1].
    vm_compute; reflexivity. }
  assert (H12 : step (run_worker 1) s1 = Some s2) by (vm_compute; reflexivity).
  assert (H23 : step (run_worker 0) s2 = Some s3) by (vm_compute; reflexivity).
  split; [exact Hr1|]. split; [exact H12|]. split; [exact H23|].
  split; [vm_compute; reflexivity|].
  split; [split; vm_compute; reflexivity|].
  destruct (cancellation_first_error_wins 10 world_two_failures) as (_ & _ & H).
  split.
  - apply (proj2 (proj2 (H s1 Hr1)) (run_worker 1) s2
             (UnmarshalTypeError "bool") H12).
    split; [eexists; split; vm_compute; reflexivity|vm_compute; reflexivity].
  - apply (proj2 (proj2 (H s2 Hr2)) (run_worker 0) s3
             (UnmarshalTypeError "number") H23).
    split; [eexists; split; vm_compute; reflexivity|vm_compute; reflexivity].
Defined.

(** ** The join *)

(** C7: whenever ch is closed, the producer and every worker have
    returned and the waiting goroutine is past g.Wait; the only step that
    closes ch is that of the waiting goroutine, taken when all of them have
    returned without error. *)
Theorem results_channel_closed_after_join n w s :
  reachable n w s →
  (ch_closed s = true →
     waiter s = G_Closed
     ∧ (∃ r, producer s = P_Returned r)
     ∧ (∀ i x, workers s !! i = Some x → ∃ r, x = W_Returned r))
  ∧ (∀ l s', step l s = Some s' → ch_closed s = false → ch_closed s' = true →
       l = run_waiter ∧ all_returned s = true ∧ g_err s = None).
Proof.
  intros Hinv%inv_reachable. split.
  - intros Hcc. pose proof (inv_ch _ _ Hinv Hcc) as Hwa.
    destruct (inv_closed _ _ Hinv Hwa) as (_ & Hall & _).
    split; [done|]. split.
    + unfold all_returned in Hall. apply andb_true_iff in Hall as [Hp _].
      destruct (producer s); try done. by eexists.
    + intros i x Hi. pose proof (all_returned_worker _ _ _ Hall Hi) as Hx.
      destruct x; try done. by eexists.
  - intros l s' Hstep Hcc Hcc'. unfold step in Hstep.
    unfold step_producer, step_hits, step_worker, step_ch, step_waiter,
      step_main, producer_return, worker_return, errgroup_returned in Hstep.
    repeat case_match; simplify_eq; simpl in *; try congruence; done.
Qed.

(** After the join on a query without matches. *)
Lemma results_channel_closed_after_join_none :
  ∃ s, exec sched_join (main world_none) = Some s
       ∧ ch_closed s = true
       ∧ waiter s = G_Closed
       ∧ (∃ r, producer s = P_Returned r)
       ∧ (∀ i x, workers s !! i = Some x → ∃ r, x = W_Returned r).
Proof.
  eexists. split; [vm_compute; reflexivity|]. split; [done|].
  match goal with |- context [waiter ?s] =>
    apply (proj1 (results_channel_closed_after_join 10 world_none s
                    (ex_intro _ sched_join eq_refl)))
  end.
  done.
Defined.

(** ** Some run succeeds when nothing fails *)

(** Running one schedule after another. *)
Lemma exec_app a b s : exec (a ++ b) s = exec a s ≫= exec b.
Proof.
  revert s. induction a as [|l a IH]; intros s; simpl; [done|].
  destruct (step l s); [apply IH|done].
Qed.

Lemma exec_app_Some a b s s1 :
  exec a s = Some s1 → exec (a ++ b) s = exec b s1.
Proof. intros H. by rewrite exec_app, H. Qed.

(** Worker 0 handles the next hit of the page and is back waiting. *)
Lemma one_hit_idle n s hit rest :
  idle (S n) s → producer s = P_Send (hit :: rest) → is_Some (decode hit) →
  ∃ s', exec (one_hit 0) s = Some s' ∧ idle (S n) s'
        ∧ producer s' = P_Send rest ∧ scroll s' = scroll s
        ∧ WriteFile_err s' = WriteFile_err s ∧ written s' = written s.
Proof.
  intros (Hws & Hhc & Hg & Hcd & Hwa & Hcc & Hma & Hpa) Hp [p Hdec].
  destruct s as [sc pr hc ws ge cd wa cc ma da bt bc we wr pa].
  simpl in *. subst.
  unfold decode in Hdec. destruct hit as [id [raw|]]; [|done]. simpl in Hdec.
  destruct (json.Unmarshal raw (mkSource "")) as [p' [e|]] eqn:HU; [done|].
  eexists. split.
  - unfold one_hit. cbn. rewrite HU. cbn. reflexivity.
  - cbn. repeat split; done.
Qed.

(** Worker 0 handles the whole page. *)
Lemma sched_hits_idle n hs : ∀ s,
  idle (S n) s → producer s = P_Send hs →
  Forall (λ hit, is_Some (decode hit)) hs →
  ∃ s', exec (sched_hits hs) s = Some s' ∧ idle (S n) s'
        ∧ producer s' = P_Send [] ∧ scroll s' = scroll s
        ∧ WriteFile_err s' = WriteFile_err s ∧ written s' = written s.
Proof.
  induction hs as [|hit hs IH]; intros s Hidle Hp Hdec.
  - exists s. split; [done|]. split; [done|]. by repeat split.
  - apply Forall_cons_1 in Hdec as [Hhit Hhs].
    destruct (one_hit_idle n s hit hs Hidle Hp Hhit)
      as (s1 & H1 & Hidle1 & Hp1 & Hsc1 & Hwe1 & Hwr1).
    destruct (IH s1 Hidle1 Hp1 Hhs) as (s2 & H2 & Hidle2 & Hp2 & Hsc2 & Hwe2 & Hwr2).
    exists s2. split; [|split; [done|]; repeat split; try done; congruence].
    change (sched_hits (hit :: hs)) with (one_hit 0 ++ sched_hits hs).
    by rewrite (exec_app_Some _ _ _ _ H1).
Qed.

(** The producer goes through the whole scroll and returns nil. *)
Lemma sched_scroll_idle n c : ∀ s,
  idle (S n) s → producer s = P_Do → scroll s = c →
  scroll_end c = io_EOF →
  Forall (λ hit, is_Some (decode hit)) (scrolled_hits c) →
  ∃ s', exec (sched_scroll c) s = Some s'
        ∧ producer s' = P_Returned None ∧ hits_closed s' = true
        ∧ workers s' = replicate (S n) W_Range ∧ g_err s' = None
        ∧ waiter s' = G_Wait ∧ ch_closed s' = false ∧ main_at s' = M_Range
        ∧ panicked s' = None
        ∧ WriteFile_err s' = WriteFile_err s ∧ written s' = written s.
Proof.
  induction c as [|[hs|e] c IH]; intros s Hidle Hp Hsc Hend Hdec.
  - destruct Hidle as (Hws & Hhc & Hg & Hcd & Hwa & Hcc & Hma & Hpa).
    destruct s as [sc pr hc ws ge cd wa cc ma da bt bc we wr pa].
    simpl in *. subst. eexists. split; [reflexivity|]. by repeat split.
  - simpl in Hend, Hdec. apply Forall_app in Hdec as [Hhs Hrest].
    set (s1 := set_producer (P_Send hs) (set_scroll c s)).
    assert (H1 : exec [run_producer] s = Some s1).
    { destruct Hidle as (Hws & Hhc & Hg & Hcd & Hwa & Hcc & Hma & Hpa).
      cbn [exec]. unfold step. rewrite Hpa, Hma. unfold step_producer.
      by rewrite Hp, Hsc. }
    assert (Hidle1 : idle (S n) s1) by (by destruct s).
    destruct (sched_hits_idle n hs s1 Hidle1 eq_refl Hhs)
      as (s2 & H2 & Hidle2 & Hp2 & Hsc2 & Hwe2 & Hwr2).
    set (s3 := set_producer P_Do s2).
    assert (H3 : exec [run_producer; run_producer] s2 = Some s3).
    { destruct Hidle2 as (Hws & Hhc & Hg & Hcd & Hwa & Hcc & Hma & Hpa).
      cbn [exec]. unfold step at 1. rewrite Hpa, Hma. unfold step_producer at 1.
      rewrite Hp2. unfold step. cbn [panicked main_at set_producer].
      rewrite Hpa, Hma. unfold step_producer. cbn [producer set_producer ctx_done].
      by rewrite Hcd. }
    assert (Hidle3 : idle (S n) s3) by (by destruct s2).
    destruct (IH s3 Hidle3 eq_refl) as (s4 & H4 & Hrest4); [by destruct s2|done..|].
    exists s4. split.
    + change (sched_scroll (elastic.Page hs :: c))
        with ([run_producer] ++ sched_hits hs ++ [run_producer; run_producer]
              ++ sched_scroll c).
      rewrite (exec_app_Some _ _ _ _ H1), (exec_app_Some _ _ _ _ H2).
      by rewrite (exec_app_Some _ _ _ _ H3).
    + destruct Hrest4 as (?&?&?&?&?&?&?&?&Hwe4&Hwr4). repeat split; try done.
      * rewrite Hwe4. simpl. rewrite Hwe2. done.
      * rewrite Hwr4. simpl. rewrite Hwr2. done.
  - simpl in Hend. subst e.
    destruct Hidle as (Hws & Hhc & Hg & Hcd & Hwa & Hcc & Hma & Hpa).
    destruct s as [sc pr hc ws ge cd wa cc ma da bt bc we wr pa].
    simpl in *. subst. eexists. split; [reflexivity|]. by repeat split.
Qed.

Lemma replicate_shift {A} (x : A) k (l : list A) :
  replicate k x ++ x :: l = replicate (S k) x ++ l.
Proof. induction k as [|k IH]; simpl; [done|]. by rewrite IH. Qed.

(** Once hits is closed the waiting workers return one after the other. *)
Lemma workers_return m : ∀ k s,
  workers s = replicate k (W_Returned None) ++ replicate m W_Range →
  hits_closed s = true → main_at s = M_Range → panicked s = None →
  ∃ s', exec (map run_worker (seq k m)) s = Some s'
        ∧ workers s' = replicate (k + m) (W_Returned None)
        ∧ same_but_workers s s'.
Proof.
  induction m as [|m IH]; intros k s Hws Hhc Hma Hpa.
  - exists s. rewrite Nat.add_0_r, Hws, app_nil_r. by repeat split.
  - set (s1 := set_worker k (W_Returned None) s).
    assert (Hk : workers s !! k = Some W_Range).
    { rewrite Hws, lookup_app_r by (by rewrite length_replicate).
      by rewrite length_replicate, Nat.sub_diag. }
    assert (H1 : step (run_worker k) s = Some s1).
    { unfold step. rewrite Hpa, Hma. unfold step_worker. by rewrite Hk, Hhc. }
    destruct (IH (S k) s1) as (s2 & H2 & Hws2 & Hsame); try done.
    { unfold s1. cbn [workers set_worker]. rewrite Hws.
      rewrite insert_app_r_alt by (by rewrite length_replicate).
      rewrite length_replicate, Nat.sub_diag. cbn [replicate].
      apply replicate_shift. }
    exists s2. split; [|split].
    + simpl. by rewrite H1.
    + by rewrite Hws2, Nat.add_succ_r.
    + destruct Hsame as (?&?&?&?&?&?&?&?&?). by repeat split.
Qed.

Lemma forallb_returned n :
  forallb worker_returned (replicate n (W_Returned None)) = true.
Proof. by induction n. Qed.

(** After the last return: the join, and main up to its end. *)
Lemma join_and_write n s :
  producer s = P_Returned None → workers s = replicate n (W_Returned None) →
  g_err s = None → waiter s = G_Wait → ch_closed s = false →
  main_at s = M_Range → panicked s = None → WriteFile_err s = None →
  ∃ s', exec [run_waiter; run_main; run_main; run_main; run_main] s = Some s'
        ∧ succeeded s'.
Proof.
  intros Hp Hws Hg Hwa Hcc Hma Hpa Hwe.
  destruct s as [sc pr hc ws ge cd wa cc ma da bt bc we wr pa].
  simpl in *. subst. eexists. split.
  - cbn. unfold all_returned. cbn. rewrite forallb_returned. cbn. reflexivity.
  - done.
Qed.

(** In a world in which nothing fails, with at least one worker, some run
    ends with data.json written. *)
Theorem success_exists n w :
  0 < n → error_free w → ∃ s, reachable n w s ∧ succeeded s.
Proof.
  intros Hn (Hnc & [total Hcount] & Hend & Hdec & Hwf).
  destruct n as [|n]; [lia|].
  assert (Hstart : start (S n) w = spawned (S n) w total).
  { unfold start. by rewrite Hnc, Hcount. }
  destruct (sched_scroll_idle n (Scroll_answers w) (start (S n) w))
    as (s1 & H1 & Hp1 & Hhc1 & Hws1 & Hg1 & Hwa1 & Hcc1 & Hma1 & Hpa1 & Hwe1 & Hwr1).
  { rewrite Hstart. by repeat split. }
  { by rewrite Hstart. }
  { by rewrite Hstart. }
  { done. }
  { done. }
  destruct (workers_return (S n) 0 s1) as (s2 & H2 & Hws2 & Hsame); try done.
  change (0 + S n) with (S n) in Hws2.
  destruct Hsame as (Hp2 & Hhc2 & Hg2 & Hwa2 & Hcc2 & Hma2 & Hpa2 & Hwe2 & Hwr2).
  destruct (join_and_write (S n) s2) as (s3 & H3 & Hsucc); try congruence.
  { by rewrite Hwe2, Hwe1, Hstart. }
  exists s3. split; [|done].
  exists (sched_scroll (Scroll_answers w) ++ wind_up (S n)).
  rewrite (exec_app_Some _ _ _ _ H1). unfold wind_up.
  by rewrite (exec_app_Some _ _ _ _ H2).
Qed.

(** ** No blocking unless something failed *)

(** The facts about returned stages hold along every run. *)
Lemma returned_inv_start n w : returned_inv n (start n w).
Proof.
  unfold start.
  destruct (NewClient_err w) as [e|]; [|destruct (Count_result w) as [e|total]];
    split; simpl; try done.
  - by intros i [[=] _]%lookup_replicate.
  - by intros i e [[=] _]%lookup_replicate.
  - intros _. apply length_replicate.
Qed.

Lemma returned_inv_step n l s s' :
  returned_inv n s → step l s = Some s' → returned_inv n s'.
Proof.
  intros [Hnil Herr Hprod Hlen] Hstep.
  unfold step in Hstep. destruct (panicked s) eqn:Hpa; [done|].
  unfold step_producer, step_hits, step_worker, step_ch, step_waiter,
    step_main, producer_return, worker_return, errgroup_returned in Hstep.
  simpl in Hstep.
  repeat case_match; simplify_eq; split; simpl in *;
    rewrite ?length_insert; try done; eauto.
  all: try (intros ? [(_ & [=] & _)|[_ ?]]%list_lookup_insert_Some; by eauto).
  all: try (intros ?? [(_ & [=] & _)|[_ ?]]%list_lookup_insert_Some; by eauto).
Qed.

Lemma returned_inv_reachable n w s : reachable n w s → returned_inv n s.
Proof.
  intros [sched Hexec]. revert Hexec.
  generalize (returned_inv_start n w). generalize (start n w).
  induction sched as [|l sched IH]; intros s0 H0 Hexec; simpl in Hexec.
  - by simplify_eq.
  - destruct (step l s0) as [s1|] eqn:Hstep; [|done].
    eapply IH; [|done]. by eapply returned_inv_step.
Qed.

(** Some worker has not returned. *)
Lemma forallb_false_lookup {A} (f : A → bool) (l : list A) :
  forallb f l = false → ∃ i x, l !! i = Some x ∧ f x = false.
Proof.
  induction l as [|x l IH]; [done|]. simpl.
  destruct (f x) eqn:Hx; simpl.
  - intros (i & y & Hi & Hy)%IH. by exists (S i), y.
  - intros _. by exists 0, x.
Qed.

(** A worker that has not returned can move, provided that, if it waits
    on hits, hits is closed or the producer is sending. *)
Lemma worker_moves s i x :
  panicked s = None → main_at s = M_Range →
  workers s !! i = Some x → worker_returned x = false →
  (x = W_Range →
   hits_closed s = true ∨ ∃ hit rest, producer s = P_Send (hit :: rest)) →
  ∃ l s', step l s = Some s'.
Proof.
  intros Hpa Hma Hi Hx Hrange.
  destruct x as [|hit|hit p| | |r]; try done.
  - destruct (Hrange eq_refl) as [Hhc|(hit & rest & Hp)].
    + exists (run_worker i). unfold step, step_worker.
      rewrite Hpa, Hma, Hi, Hhc. by eexists.
    + exists (pass_hit i). unfold step, step_hits.
      rewrite Hpa, Hma, Hp, Hi. by eexists.
  - exists (run_worker i). unfold step, step_worker. rewrite Hpa, Hma, Hi.
    destruct (elastic.Source hit) as [raw|]; [|by eexists].
    destruct (json.Unmarshal raw (mkSource "")) as [p [e|]]; by eexists.
  - exists (pass_result i). unfold step, step_ch. rewrite Hpa, Hma, Hi.
    by eexists.
  - exists (run_worker i). unfold step, step_worker. rewrite Hpa, Hma, Hi.
    by eexists.
  - exists (run_worker i). unfold step, step_worker. rewrite Hpa, Hma, Hi.
    destruct (ctx_done s); by eexists.
Qed.

(** As long as no stage has failed and nothing has panicked, a run with at
    least one worker that has not come to its end can go on: the pipeline
    does not block unless something failed. *)
Theorem moves_unless_failed n w s :
  0 < n → reachable n w s →
  g_err s = None → panicked s = None → main_at s ≠ M_Exit →
  ∃ l s', step l s = Some s'.
Proof.
  intros Hn Hreach Hg Hpa Hexit.
  pose proof (inv_reachable _ _ _ Hreach) as Hinv.
  pose proof (returned_inv_reachable _ _ _ Hreach) as Hret.
  destruct (main_at s) as [| |j| |] eqn:Hma; try done.
  2-4: exists run_main; unfold step, step_main; rewrite Hpa, Hma;
       try destruct (WriteFile_err s); by eexists.
  destruct (ch_closed s) eqn:Hcc.
  { exists run_main. unfold step, step_main. rewrite Hpa, Hma, Hcc. by eexists. }
  assert (Hwa : waiter s = G_Wait).
  { destruct (waiter s) eqn:Hwa; [done|].
    destruct (inv_closed _ _ Hinv Hwa) as (Hcc' & _). congruence. }
  destruct (all_returned s) eqn:Hall.
  { exists run_waiter. unfold step, step_waiter.
    rewrite Hpa, Hma, Hwa, Hall, Hg. by eexists. }
  pose proof (inv_hits _ _ Hinv) as Hhits.
  unfold all_returned in Hall.
  destruct (producer s) as [|[|hit rest]| |r] eqn:Hp.
  - exists run_producer. unfold step, step_producer. rewrite Hpa, Hma, Hp.
    destruct (elastic.Do (scroll s)) as [[hs|e] c]; [by eexists|].
    destruct (decide (e = io_EOF)); by eexists.
  - exists run_producer. unfold step, step_producer. rewrite Hpa, Hma, Hp.
    by eexists.
  - destruct (forallb worker_returned (workers s)) eqn:Hws.
    + pose proof (ret_workers _ _ Hret Hpa) as Hlen.
      destruct (workers s) as [|x ws] eqn:Hw; [simpl in Hlen; lia|].
      simpl in Hws. apply andb_true_iff in Hws as [Hx _].
      destruct x as [| | | | |[e|]]; try done.
      * assert (He : is_Some (g_err s)).
        { apply (ret_err _ _ Hret 0 e). by rewrite Hw. }
        rewrite Hg in He. by destruct He.
      * assert (Hhc : hits_closed s = true).
        { apply (ret_nil _ _ Hret 0). by rewrite Hw. }
        simpl in Hhits. congruence.
    + destruct (forallb_false_lookup _ _ Hws) as (i & x & Hi & Hx).
      apply (worker_moves s i x); try done. intros _. right. by eexists _, _.
  - exists run_producer. unfold step, step_producer. rewrite Hpa, Hma, Hp.
    destruct (ctx_done s); by eexists.
  - simpl in Hall, Hhits.
    destruct (forallb_false_lookup _ _ Hall) as (i & x & Hi & Hx).
    apply (worker_moves s i x); try done. intros _. by left.
Qed.

(** ** Nothing fails in a world in which nothing fails *)

(** The answer ioutil.WriteFile will give does not change during a run. *)
Lemma WriteFile_err_kept l s s' :
  step l s = Some s' → WriteFile_err s' = WriteFile_err s.
Proof.
  unfold step, step_producer, step_hits, step_worker, step_ch, step_waiter,
    step_main, producer_return, worker_return, errgroup_returned.
  intros Hstep. simpl in Hstep.
  repeat case_match; simplify_eq; simpl in *; done.
Qed.

(** A hit a worker holds comes from the pages of the scroll. *)
Lemma in_flight_scrolled w s i x hit :
  inv w s → g_err s = None → workers s !! i = Some x → hit ∈ in_flight x →
  hit ∈ scrolled_hits (Scroll_answers w).
Proof.
  intros Hinv Hg Hi Hhit.
  destruct (inv_flow _ _ Hinv Hg) as (collected & _ & _ & Hperm).
  rewrite Hperm. apply elem_of_app. right. apply elem_of_app. left.
  rewrite (bind_lookup_perm in_flight _ _ _ Hi). apply elem_of_app. by left.
Qed.

(** A step is a step of one goroutine of a live process. *)
Lemma step_inv l s s' :
  step l s = Some s' →
  panicked s = None ∧ main_at s ≠ M_Exit
  ∧ match l with
    | run_producer => step_producer s
    | pass_hit i => step_hits i s
    | run_worker i => step_worker i s
    | pass_result i => step_ch i s
    | run_waiter => step_waiter s
    | run_main => step_main s
    end = Some s'.
Proof.
  unfold step. destruct (panicked s); [done|].
  by destruct (main_at s).
Qed.

(** In a world in which nothing fails no step of a run fails. *)
Lemma error_free_step n w l s s' :
  error_free w → reachable n w s →
  WriteFile_err s = None → g_err s = None →
  step l s = Some s' →
  g_err s' = None ∧ panicked s' = None.
Proof.
  intros (_ & _ & Hend & Hdec & _) Hreach Hwe Hg Hstep.
  pose proof (inv_reachable _ _ _ Hreach) as Hinv.
  assert (Hcd : all_returned s = false → ctx_done s = false).
  { intros Hrun. destruct (ctx_done s) eqn:Hcd; [|done].
    apply (inv_ctx _ _ Hinv) in Hcd as [[e He]|Hwa]; [congruence|].
    destruct (inv_closed _ _ Hinv Hwa) as (_ & Hall & _). congruence. }
  apply step_inv in Hstep as (Hpa & _ & Hstep).
  destruct l as [|i|i|i| |].
  - unfold step_producer, producer_return, errgroup_returned in Hstep.
    pose proof (inv_end _ _ Hinv Hg) as Hend'.
    destruct (producer s) as [|[|hit rest]| |r] eqn:Hp; try done; simpl in *.
    + destruct (scroll s) as [|[hs|e] c] eqn:Hsc; simpl in *.
      * by simplify_eq.
      * by simplify_eq.
      * assert (e = io_EOF) as -> by congruence.
        rewrite decide_True in Hstep by done. by simplify_eq.
    + by simplify_eq.
    + rewrite Hcd in Hstep by (unfold all_returned; by rewrite Hp).
      by simplify_eq.
  - unfold step_hits in Hstep. repeat case_match; by simplify_eq.
  - unfold step_worker, worker_return, errgroup_returned in Hstep.
    destruct (workers s !! i) as [x|] eqn:Hi; [|done].
    destruct x as [|hit|hit p| | |r]; try done.
    + destruct (hits_closed s); by simplify_eq.
    + assert (Hhit : is_Some (decode hit)).
      { rewrite Forall_forall in Hdec. apply Hdec.
        eapply in_flight_scrolled; [done..|]. simpl. apply list_elem_of_here. }
      destruct Hhit as [p Hp]. unfold decode in Hp.
      destruct (elastic.Source hit) as [raw|]; [|done].
      destruct (json.Unmarshal raw (mkSource "")) as [p' [e|]]; [done|].
      by simplify_eq.
    + by simplify_eq.
    + rewrite Hcd in Hstep by (by eapply running_worker).
      by simplify_eq.
  - unfold step_ch in Hstep. repeat case_match; by simplify_eq.
  - unfold step_waiter in Hstep. rewrite Hg in Hstep.
    repeat case_match; by simplify_eq.
  - unfold step_main in Hstep. rewrite Hwe in Hstep.
    repeat case_match; by simplify_eq.
Qed.

(** Hence no run of such a world ever holds an error or a panic. *)
Lemma error_free_never_fails n w sched : ∀ s,
  error_free w → exec sched (start n w) = Some s →
  g_err s = None ∧ panicked s = None ∧ WriteFile_err s = None.
Proof.
  induction sched as [|l sched IH] using rev_ind; intros s Hw Hexec.
  - simpl in Hexec. simplify_eq.
    destruct Hw as (Hnc & [total Hcount] & _ & _ & Hwf).
    unfold start. by rewrite Hnc, Hcount.
  - rewrite exec_app in Hexec.
    destruct (exec sched (start n w)) as [s0|] eqn:H0; [|done].
    simpl in Hexec. destruct (step l s0) as [s1|] eqn:Hstep; [|done].
    simplify_eq.
    destruct (IH s0 Hw eq_refl) as (Hg & Hpa & Hwe).
    destruct (error_free_step n w l s0 s Hw) as [Hg' Hpa']; try done.
    { by exists sched. }
    repeat split; [done..|]. by rewrite (WriteFile_err_kept _ _ _ Hstep).
Qed.

(** In a world in which nothing fails, with at least one worker, a run
    that cannot go on has written data.json. *)
Theorem stops_only_in_success n w s :
  0 < n → error_free w → reachable n w s →
  (∀ l, step l s = None) → succeeded s.
Proof.
  intros Hn Hw Hreach Hstuck.
  destruct Hreach as [sched Hexec].
  destruct (error_free_never_fails n w sched s Hw Hexec) as (Hg & Hpa & _).
  split; [|done].
  destruct (main_at s) eqn:Hma; [..|done];
    (destruct (moves_unless_failed n w s) as (l & s' & Hstep);
     [done|by exists sched|done|done|congruence|]; by rewrite Hstuck in Hstep).
Qed.

(** ** Every run halts *)

(** Asking the cursor always costs a step. *)
Lemma scroll_fuel_pos c : 0 < scroll_fuel c.
Proof. destruct c as [|[]]; simpl; lia. Qed.

(** The fuel of the workers when worker i moves from x to y. *)
Lemma sum_insert (ws : list worker_pc) i x y :
  ws !! i = Some x →
  sum_list (worker_fuel <$> <[i:=y]> ws) + worker_fuel x
  = sum_list (worker_fuel <$> ws) + worker_fuel y.
Proof.
  revert i. induction ws as [|z ws IH]; intros [|i] Hi; simplify_eq/=.
  - lia.
  - specialize (IH i Hi). lia.
Qed.

(** Every step uses up fuel. *)
Lemma step_fuel l s s' : step l s = Some s' → fuel s' < fuel s.
Proof.
  intros (Hpa & Hexit & Hstep)%step_inv.
  unfold fuel. rewrite Hpa.
  destruct l as [|i|i|i| |].
  - unfold step_producer, producer_return, errgroup_returned in Hstep.
    pose proof (scroll_fuel_pos (scroll s)).
    destruct (producer s) as [|[|hit rest]| |r] eqn:Hp; try done; simpl in *.
    + destruct (scroll s) as [|[hs|e] c] eqn:Hsc; simpl in *.
      * simplify_eq. simpl. rewrite Hpa. simpl. lia.
      * simplify_eq. simpl. rewrite Hpa. simpl. lia.
      * destruct (decide (e = io_EOF)), (g_err s); simplify_eq; simpl;
          rewrite Hpa; simpl; lia.
    + simplify_eq. simpl. rewrite Hpa. simpl. lia.
    + destruct (ctx_done s), (g_err s); simplify_eq; simpl; rewrite Hpa; simpl; lia.
  - unfold step_hits in Hstep.
    destruct (producer s) as [|[|hit rest]| |r] eqn:Hp; try done.
    destruct (workers s !! i) as [[]|] eqn:Hi; try done. simplify_eq.
    simpl. rewrite Hpa.
    pose proof (sum_insert _ i _ (W_Unmarshal hit) Hi). simpl in *. lia.
  - unfold step_worker, worker_return, errgroup_returned in Hstep.
    destruct (workers s !! i) as [x|] eqn:Hi; [|done].
    destruct x as [|hit|hit p| | |r]; try done; simpl in Hstep.
    + destruct (hits_closed s); simplify_eq. simpl. rewrite Hpa.
      pose proof (sum_insert _ i _ (W_Returned None) Hi). simpl in *. lia.
    + destruct (elastic.Source hit) as [raw|].
      * destruct (json.Unmarshal raw (mkSource "")) as [p [e|]].
        -- destruct (g_err s); simplify_eq; simpl; rewrite Hpa;
             pose proof (sum_insert _ i _ (W_Returned (Some e)) Hi);
             simpl in *; lia.
        -- simplify_eq. simpl. rewrite Hpa.
           pose proof (sum_insert _ i _ (W_Send hit p) Hi). simpl in *. lia.
      * simplify_eq. simpl.
        pose proof (sum_insert _ i _ W_Range Hi). simpl in *. lia.
    + simplify_eq. simpl. rewrite Hpa.
      pose proof (sum_insert _ i _ W_Select Hi). simpl in *. lia.
    + destruct (ctx_done s), (g_err s); simplify_eq; simpl; rewrite Hpa.
      1,2: pose proof (sum_insert _ i _ (W_Returned (Some ctx_Err)) Hi);
           simpl in *; lia.
      1,2: pose proof (sum_insert _ i _ W_Range Hi); simpl in *; lia.
  - unfold step_ch in Hstep.
    destruct (main_at s) eqn:Hma; try done.
    destruct (workers s !! i) as [[|hit|hit p| | |r]|] eqn:Hi; try done.
    simplify_eq. simpl. rewrite Hpa, Hma.
    pose proof (sum_insert _ i _ W_Increment Hi). simpl in *. lia.
  - unfold step_waiter in Hstep.
    destruct (waiter s) eqn:Hwa; [|done].
    destruct (all_returned s); [|done].
    destruct (g_err s); simplify_eq; simpl; [lia|]. rewrite Hpa. lia.
  - unfold step_main in Hstep.
    destruct (main_at s) as [| |j| |] eqn:Hma; try done.
    + destruct (ch_closed s); simplify_eq. simpl. rewrite Hpa. simpl. lia.
    + simplify_eq. simpl. rewrite Hpa. simpl. lia.
    + destruct (WriteFile_err s); simplify_eq; simpl; [lia|].
      rewrite Hpa. simpl. lia.
    + simplify_eq. simpl. rewrite Hpa. simpl. lia.
Qed.

(** No run is longer than the fuel of the state it starts from: whatever
    the scheduler does, main.go comes to a halt. *)
Theorem run_bounded sched : ∀ s s',
  exec sched s = Some s' → (length sched + fuel s' ≤ fuel s)%nat.
Proof.
  induction sched as [|l sched IH]; intros s s' Hexec; simpl in Hexec.
  - simplify_eq. simpl. lia.
  - destruct (step l s) as [s1|] eqn:Hstep; [|done].
    apply step_fuel in Hstep. apply IH in Hexec. simpl. lia.
Qed.

(** ** The number of workers *)

(** C8: for the same world, a run with one worker and a run with ten
    workers that both end in success collect the same identifiers, up to
    order.  In a world in which nothing fails such runs exist for one
    worker and for ten, and with either number every run halts after a
    bounded number of steps and can only come to rest in success. *)
Theorem worker_count_irrelevant w :
  (∀ s1 s10,
     reachable 1 w s1 → succeeded s1 →
     reachable 10 w s10 → succeeded s10 →
     ids (slice_elems (data s1)) ≡ₚ ids (slice_elems (data s10))
     ∧ ∀ id, id ∈ ids (slice_elems (data s1)) ↔ id ∈ ids (slice_elems (data s10)))
  ∧ (error_free w →
     (∃ s1 s10, reachable 1 w s1 ∧ succeeded s1
                ∧ reachable 10 w s10 ∧ succeeded s10)
     ∧ ∀ n sched s, n = 1 ∨ n = 10 → exec sched (start n w) = Some s →
         (length sched ≤ fuel (start n w))%nat
         ∧ ((∀ l, step l s = None) → succeeded s)).
Proof.
  split.
  - intros s1 s10 Hr1 [Hs1 _] Hr10 [Hs10 _].
    assert (H1 : main_at s1 ≠ M_Range) by congruence.
    assert (H10 : main_at s10 ≠ M_Range) by congruence.
    assert (H : ids (slice_elems (data s1)) ≡ₚ ids (slice_elems (data s10))).
    { by rewrite (collected_ids 1 w s1 Hr1 H1), (collected_ids 10 w s10 Hr10 H10). }
    split; [done|]. intros id. by rewrite H.
  - intros Hw. split.
    + destruct (success_exists 1 w) as (s1 & Hr1 & Hs1); [lia|done|].
      destruct (success_exists 10 w) as (s10 & Hr10 & Hs10); [lia|done|].
      by exists s1, s10.
    + intros n sched s Hn Hexec. split.
      * pose proof (run_bounded sched _ _ Hexec). lia.
      * apply (stops_only_in_success n w s); [lia|done|by exists sched].
Qed.

(** One worker and ten workers on the same three documents. *)
Lemma worker_count_irrelevant_three :
  ∃ s1 s10,
    exec (sched_three 1) (start 1 world_three) = Some s1
    ∧ exec (sched_three 10) (start 10 world_three) = Some s10
    ∧ succeeded s1 ∧ succeeded s10
    ∧ ids (slice_elems (data s1)) ≡ₚ ids (slice_elems (data s10))
    ∧ ∀ id, id ∈ ids (slice_elems (data s1)) ↔ id ∈ ids (slice_elems (data s10)).
Proof.
  eexists _, _.
  split; [vm_compute; reflexivity|]. split; [vm_compute; reflexivity|].
  split; [done|]. split; [done|].
  apply (proj1 (worker_count_irrelevant world_three)).
  - by exists (sched_three 1).
  - done.
  - by exists (sched_three 10).
  - done.
Defined.

(** ** A producer nobody listens to *)

(** When all workers have returned, any index holds a returned worker or
    none. *)
Lemma returned_lookup (ws : list worker_pc) i :
  forallb worker_returned ws = true →
  ws !! i = None ∨ ∃ r, ws !! i = Some (W_Returned r).
Proof.
  intros Hall. destruct (ws !! i) as [x|] eqn:Hi; [right|by left].
  rewrite forallb_forall in Hall.
  assert (Hx : worker_returned x = true).
  { apply Hall, list_elem_of_In. by eapply list_elem_of_lookup_2. }
  destruct x; try done. by eexists.
Qed.

(** When every worker has returned while the producer still has a hit to
    send, nothing can move any more. *)
Lemma producer_stranded n w s hit rest :
  reachable n w s →
  producer s = P_Send (hit :: rest) →
  forallb worker_returned (workers s) = true →
  panicked s = None →
  deadlocked s.
Proof.
  intros Hinv%inv_reachable Hp Hws Hpa.
  assert (Hrun : all_returned s = false).
  { unfold all_returned. by rewrite Hp. }
  destruct (waiting_while_running _ _ Hinv Hrun) as (Hwa & Hcc & Hma).
  split; [done|]. split; [congruence|].
  intros l. unfold step. rewrite Hpa, Hma.
  destruct l as [|i|i|i| |].
  - unfold step_producer. by rewrite Hp.
  - unfold step_hits. rewrite Hp.
    by destruct (returned_lookup _ i Hws) as [->|[r ->]].
  - unfold step_worker.
    by destruct (returned_lookup _ i Hws) as [->|[r ->]].
  - unfold step_ch. rewrite Hma.
    by destruct (returned_lookup _ i Hws) as [->|[r ->]].
  - unfold step_waiter. by rewrite Hwa, Hrun.
  - unfold step_main. by rewrite Hma, Hcc.
Qed.

(** C9: what main.go does on a page of eleven documents the first of
    which does not decode.  Worker 0 returns the error and the context is
    cancelled; each of the other nine workers still decodes one document,
    hands it to main, finds the context cancelled and returns.  The
    producer is left in its send of the eleventh document: it never looks
    at the context there, g.Wait never returns, the error is never
    reported, and no goroutine can move again. *)
Theorem producer_blocks_after_failure :
  ∃ s, exec sched_one_bad_of_eleven (main world_one_bad_of_eleven) = Some s
       ∧ g_err s = Some (UnmarshalTypeError "number")
       ∧ ctx_done s = true
       ∧ producer s = P_Send [hit_ok "10"]
       ∧ len (data s) = 9
       ∧ deadlocked s.
Proof.
  eexists. split; [vm_compute; reflexivity|].
  split; [done|]. split; [done|]. split; [done|]. split; [done|].
  eapply (producer_stranded 10 world_one_bad_of_eleven).
  - exists sched_one_bad_of_eleven. vm_compute; reflexivity.
  - done.
  - done.
  - done.
Qed.

(** ** Decoding *)

(** Decoding the members of an object fails exactly when an error was
    already saved or some member for Code is neither string nor null. *)
Lemma object_into_Source_error members : ∀ p saved,
  (json.object_into_Source members p saved).2 = None
  ↔ saved = None ∧ bad_code_member members = false.
Proof.
  induction members as [|[key v] members IH]; intros p saved; simpl.
  - by split; [|intros []].
  - destruct (json.field_matches "code" key); simpl; [|apply IH].
    destruct v; simpl; rewrite IH; destruct saved; simpl; split; intros [??]; done.
Qed.

(** Members that do not select Code leave the Source as it was. *)
Lemma object_into_Source_no_code members : ∀ p saved,
  no_code_member members = true →
  json.object_into_Source members p saved = (p, saved).
Proof.
  induction members as [|[key v] members IH]; intros p saved; simpl; [done|].
  destruct (json.field_matches "code" key); simpl; [done|]. apply IH.
Qed.

(** json.Unmarshal returns an error exactly on the rejected payloads. *)
Lemma Unmarshal_rejects raw p :
  is_Some (json.Unmarshal raw p).2 ↔ rejected raw = true.
Proof.
  destruct raw as [bytes|v]; simpl; [by split; eauto|].
  destruct v; simpl; try (by split; eauto); try (split; [by intros [? [=]]|done]).
  pose proof (object_into_Source_error members p None) as H.
  destruct (json.object_into_Source members p None) as [p' [e|]]; simpl in *.
  - destruct (bad_code_member members); [by split; eauto|].
    destruct H as [_ H]. by specialize (H (conj eq_refl eq_refl)).
  - destruct H as [[_ ->] _]; [done|]. split; [by intros [? [=]]|done].
Qed.

(** C10 (amended): a hit fails to decode exactly when its payload is
    rejected: it is not well-formed, or it is neither an object nor null,
    or some member whose key is code up to the case of its letters holds
    neither a string nor null.  An object without any such member,
    whatever else it holds, decodes to the empty code; the worker hands
    the hit on to main, counts it on the bar and goes on. *)
Theorem decode_fails_exactly_when_rejected :
  (∀ hit raw, elastic.Source hit = Some raw →
     (decode hit = None ↔ rejected raw = true))
  ∧ (∀ hit members,
       elastic.Source hit = Some (json.WellFormed (json.Object members)) →
       no_code_member members = true →
       decode hit = Some (mkSource "")
       ∧ ∀ s i, panicked s = None → main_at s = M_Range →
           workers s !! i = Some (W_Unmarshal hit) →
           ∃ s', exec [run_worker i; pass_result i; run_worker i] s = Some s'
                 ∧ data s' = append (data s) (mkHit (mkSource "") (elastic.Id hit))
                 ∧ bar_current s' = S (bar_current s)
                 ∧ g_err s' = g_err s
                 ∧ workers s' !! i = Some W_Select).
Proof.
  split.
  - intros hit raw Hsrc. unfold decode. rewrite Hsrc.
    rewrite <- (Unmarshal_rejects raw (mkSource "")).
    destruct (json.Unmarshal raw (mkSource "")) as [p [e|]]; simpl.
    + by split; eauto.
    + split; [done|by intros [? [=]]].
  - intros hit members Hsrc Hno.
    assert (Hdec : json.Unmarshal (json.WellFormed (json.Object members)) (mkSource "")
                   = (mkSource "", None)).
    { simpl. by apply object_into_Source_no_code. }
    split; [unfold decode; by rewrite Hsrc, Hdec|].
    intros s i Hpa Hma Hi.
    pose proof (lookup_lt_Some _ _ _ Hi) as Hlt.
    eexists. split.
    + cbn [exec]. unfold step at 1. rewrite Hpa, Hma.
      unfold step_worker at 1. rewrite Hi, Hsrc, Hdec.
      unfold step at 1. cbn [panicked main_at set_worker]. rewrite Hpa, Hma.
      unfold step_ch. cbn [main_at workers set_worker]. rewrite Hma.
      rewrite list_lookup_insert_eq by done.
      unfold step. cbn [panicked main_at set_worker set_data]. rewrite Hpa, Hma.
      unfold step_worker. cbn [workers set_worker set_data].
      rewrite list_lookup_insert_eq by (by rewrite length_insert).
      reflexivity.
    + simpl. repeat split; try done.
      rewrite list_lookup_insert_eq; [done|]. by rewrite !length_insert.
Qed.

(** A document without code but with another field is collected with the
    empty code and counted. *)
Lemma decode_fails_exactly_when_rejected_extra_field :
  let hit := elastic.mkSearchHit "a"
               (Some (json.WellFormed (json.Object [("name", json.Number "7")]))) in
  decode hit = Some (mkSource "")
  ∧ ∃ s', exec [run_producer; pass_hit 0; run_worker 0; pass_result 0; run_worker 0]
            (main (mkWorld None (inr 1%Z) [elastic.Page [hit]] None)) = Some s'
          ∧ data s' = mk_slice [mkHit (mkSource "") "a"]
          ∧ bar_current s' = 1.
Proof.
  intros hit.
  destruct decode_fails_exactly_when_rejected as [_ H].
  destruct (H hit [("name", json.Number "7")] eq_refl eq_refl) as [Hdec Hrun].
  split; [exact Hdec|].
  destruct (Hrun (after [run_producer; pass_hit 0]
                    (main (mkWorld None (inr 1%Z) [elastic.Page [hit]] None))) 0
              eq_refl eq_refl eq_refl) as (s' & Hexec & Hdata & Hbar & _).
  exists s'. split; [|split; [exact Hdata|exact Hbar]].
  rewrite <- Hexec. vm_compute. reflexivity.
Defined.

(** A well-formed array, and an object whose only key is Code with a
    number, do not decode although neither has a member named code. *)
Lemma well_formed_payload_without_code_fails :
  let array := json.WellFormed (json.Array []) in
  let capital := json.WellFormed (json.Object [("Code", json.Number "1")]) in
  (is_Some (json.Unmarshal array (mkSource "")).2 ∧ ¬ fails_as_claimed array)
  ∧ (is_Some (json.Unmarshal capital (mkSource "")).2 ∧ ¬ fails_as_claimed capital
     ∧ ¬ has_member "code" (json.Object [("Code", json.Number "1")])).
Proof.
  simpl. repeat split; eauto.
  - intros [[? [=]]|(? & ? & [=] & _)].
  - intros [[? [=]]|(? & ? & [= <-] & Hin & _)].
    apply list_elem_of_singleton in Hin. discriminate Hin.
  - intros (? & ? & [= <-] & Hin).
    apply list_elem_of_singleton in Hin. discriminate Hin.
Qed.

(** ** The progress bar *)

(** A sum over the workers when worker i moves from x to y. *)
Lemma sum_list_insert {A} (f : A → nat) (l : list A) i x y :
  l !! i = Some x →
  sum_list (f <$> <[i:=y]> l) + f x = sum_list (f <$> l) + f y.
Proof.
  revert i. induction l as [|z l IH]; intros [|i] Hi; simplify_eq/=.
  - lia.
  - specialize (IH i Hi). lia.
Qed.

Lemma len_append {A} (d : slice A) (x : A) : len (append d x) = S (len d).
Proof. unfold len, append. simpl. rewrite length_app. simpl. lia. Qed.

(** The bar invariant holds at the start and is kept by every step. *)
Lemma bar_inv_start n w : bar_inv w (start n w).
Proof.
  unfold bar_inv, start, counted_total.
  destruct (NewClient_err w); [done|]. destruct (Count_result w); [done|].
  simpl. split; [|done]. by induction n.
Qed.

Lemma bar_inv_step w l s s' : bar_inv w s → step l s = Some s' → bar_inv w s'.
Proof.
  intros [Hbar Htot] (Hpa & Hexit & Hstep)%step_inv. unfold bar_inv.
  destruct l as [|i|i|i| |].
  - unfold step_producer, producer_return, errgroup_returned in Hstep.
    repeat case_match; simplify_eq; simpl in *; done.
  - unfold step_hits in Hstep.
    destruct (producer s) as [|[|hit rest]| |r]; try done.
    destruct (workers s !! i) as [[]|] eqn:Hi; try done. simplify_eq. simpl.
    pose proof (sum_list_insert to_count _ i _ (W_Unmarshal hit) Hi).
    simpl in *. split; [lia|done].
  - unfold step_worker, worker_return, errgroup_returned in Hstep.
    destruct (workers s !! i) as [x|] eqn:Hi; [|done].
    destruct x as [|hit|hit p| | |r]; try done; simpl in Hstep.
    + destruct (hits_closed s); simplify_eq. simpl.
      pose proof (sum_list_insert to_count _ i _ (W_Returned None) Hi).
      simpl in *. split; [lia|done].
    + destruct (elastic.Source hit) as [raw|]; [|by simplify_eq].
      destruct (json.Unmarshal raw (mkSource "")) as [p [e|]].
      * pose proof (sum_list_insert to_count _ i _ (W_Returned (Some e)) Hi).
        destruct (g_err s); simplify_eq; simpl in *; (split; [lia|done]).
      * simplify_eq. simpl.
        pose proof (sum_list_insert to_count _ i _ (W_Send hit p) Hi).
        simpl in *. split; [lia|done].
    + simplify_eq. simpl.
      pose proof (sum_list_insert to_count _ i _ W_Select Hi).
      simpl in *. split; [lia|done].
    + pose proof (sum_list_insert to_count _ i _ (W_Returned (Some ctx_Err)) Hi).
      pose proof (sum_list_insert to_count _ i _ W_Range Hi).
      destruct (ctx_done s), (g_err s); simplify_eq; simpl in *;
        (split; [lia|done]).
  - unfold step_ch in Hstep.
    destruct (main_at s); try done.
    destruct (workers s !! i) as [[|hit|hit p| | |r]|] eqn:Hi; try done.
    simplify_eq. simpl. rewrite len_append.
    pose proof (sum_list_insert to_count _ i _ W_Increment Hi).
    simpl in *. split; [lia|done].
  - unfold step_waiter in Hstep.
    repeat case_match; simplify_eq; simpl in *; done.
  - unfold step_main in Hstep.
    repeat case_match; simplify_eq; simpl in *; done.
Qed.

Lemma bar_inv_reachable n w s : reachable n w s → bar_inv w s.
Proof.
  intros [sched Hexec]. revert Hexec.
  generalize (bar_inv_start n w). generalize (start n w).
  induction sched as [|l sched IH]; intros s0 H0 Hexec; simpl in Hexec.
  - by simplify_eq.
  - destruct (step l s0) as [s1|] eqn:Hstep; [|done].
    eapply IH; [|done]. by eapply bar_inv_step.
Qed.

(** Workers that have returned owe no increment. *)
Lemma returned_to_count (ws : list worker_pc) :
  forallb worker_returned ws = true → sum_list (to_count <$> ws) = 0.
Proof.
  induction ws as [|x ws IH]; [done|]. intros Hall. simpl in Hall.
  apply andb_true_iff in Hall as [Hx Hws].
  rewrite fmap_cons. cbn [sum_list]. rewrite (IH Hws). by destruct x.
Qed.

(** X1: the progress bar counts what main has collected.  At every
    moment of every run the counter of the bar plus the number of workers
    standing between their send on ch and bar.Increment equals the number
    of records in data, and the total of the bar is what the Count request
    answered.  Once main has left its loop over ch the counter equals the
    number of records collected, which is the number of hits on the pages
    of the scroll (whatever the total says). *)
Theorem bar_counts_collected n w s :
  reachable n w s →
  bar_current s + sum_list (to_count <$> workers s) = len (data s)
  ∧ bar_total s = counted_total w
  ∧ (main_at s ≠ M_Range →
     bar_current s = len (data s)
     ∧ bar_current s = length (scrolled_hits (Scroll_answers w))).
Proof.
  intros Hreach. destruct (bar_inv_reachable n w s Hreach) as [Hbar Htot].
  split; [done|]. split; [done|]. intros Hma.
  pose proof (inv_reachable _ _ _ Hreach) as Hinv.
  pose proof (inv_main _ _ Hinv Hma) as Hcc.
  pose proof (inv_ch _ _ Hinv Hcc) as Hwa.
  destruct (inv_closed _ _ Hinv Hwa) as (_ & Hall & _).
  unfold all_returned in Hall. apply andb_true_iff in Hall as [_ Hws].
  rewrite (returned_to_count _ Hws) in Hbar.
  destruct (collected_all n w s Hreach Hma) as (_ & _ & _ & Hperm).
  assert (Hlen : len (data s) = length (scrolled_hits (Scroll_answers w))).
  { unfold len. by rewrite Hperm, length_map. }
  lia.
Qed.

(** Three documents on two pages: the bar ends at 3 of 3. *)
Lemma bar_counts_collected_three :
  ∃ s, exec (sched_three 10) (main world_three) = Some s
       ∧ bar_current s = 3 ∧ bar_total s = 3%Z ∧ len (data s) = 3.
Proof.
  eexists. split; [vm_compute; reflexivity|].
  match goal with |- context [bar_current ?s] =>
    destruct (bar_counts_collected 10 world_three s) as (H1 & H2 & H3) end.
  { exists (sched_three 10). vm_compute; reflexivity. }
  destruct H3 as [H3 H4]; [done|].
  split; [exact H4|]. split; [exact H2|]. by rewrite <- H3.
Defined.

(** ** Where the collected records come from *)

(** Moving a hit from worker i (or from the producer) onwards keeps
    everything within the pages. *)
Lemma sub_move (H0 collected extra T T' : list elastic.SearchHit)
    (ws : list worker_pc) i x y :
  ws !! i = Some x →
  extra ++ in_flight y ++ T' ⊆+ in_flight x ++ T →
  collected ++ (ws ≫= in_flight) ++ T ⊆+ H0 →
  (collected ++ extra) ++ (<[i:=y]> ws ≫= in_flight) ++ T' ⊆+ H0.
Proof.
  intros Hi Hmove Hsub. etrans; [|exact Hsub].
  rewrite (bind_lookup_perm in_flight ws i x Hi).
  rewrite (bind_insert_perm in_flight ws i x y Hi).
  rewrite <- !(assoc_L (++)).
  apply submseteq_skips_l.
  rewrite (Permutation_app_swap_app (in_flight x)).
  rewrite (Permutation_app_swap_app (in_flight y)).
  rewrite (Permutation_app_swap_app extra).
  by apply submseteq_skips_l.
Qed.

Lemma sub_keep (H0 collected T T' : list elastic.SearchHit)
    (ws : list worker_pc) i x y :
  ws !! i = Some x →
  in_flight y ++ T' ⊆+ in_flight x ++ T →
  collected ++ (ws ≫= in_flight) ++ T ⊆+ H0 →
  collected ++ (<[i:=y]> ws ≫= in_flight) ++ T' ⊆+ H0.
Proof.
  intros Hi Hmove Hsub.
  rewrite <- (app_nil_r collected) at 1.
  by apply (sub_move H0 collected [] T T' ws i x y).
Qed.

Lemma sub_producer (H0 collected W T T' : list elastic.SearchHit) :
  T' ⊆+ T → collected ++ W ++ T ⊆+ H0 → collected ++ W ++ T' ⊆+ H0.
Proof.
  intros HT Hsub. etrans; [|exact Hsub]. by do 2 apply submseteq_skips_l.
Qed.

(** Provenance holds at the start and is kept by every step. *)
Lemma provenance_start n w : provenance w (start n w).
Proof.
  assert (Hbind : ∀ k, replicate k W_Range ≫= in_flight = []).
  { induction k as [|k IH]; [done|].
    change (replicate (S k) W_Range) with (W_Range :: replicate k W_Range).
    by rewrite bind_cons, IH. }
  exists []. split; [|split; [constructor|]].
  - unfold start. by destruct (NewClient_err w), (Count_result w).
  - unfold start, to_send.
    destruct (NewClient_err w); [|destruct (Count_result w)]; simpl;
      rewrite ?Hbind; done.
Qed.

Lemma provenance_step w l s s' :
  inv w s → provenance w s → step l s = Some s' → provenance w s'.
Proof.
  intros Hinv (collected & Hd & Hdec & Hsub) (Hpa & Hexit & Hstep)%step_inv.
  unfold provenance. unfold to_send in *.
  destruct l as [|i|i|i| |].
  - unfold step_producer, producer_return, errgroup_returned, elastic.Do in Hstep.
    exists collected.
    destruct (producer s) as [|[|hit rest]| |r] eqn:Hp; try done; simpl in *.
    + destruct (scroll s) as [|[hs|e] c] eqn:Hsc; simpl in *.
      * by simplify_eq.
      * by simplify_eq.
      * destruct (decide (e = io_EOF)), (g_err s); simplify_eq; simpl;
          repeat split; done.
    + by simplify_eq.
    + destruct (ctx_done s), (g_err s); simplify_eq; simpl;
        repeat split; try done;
        (eapply sub_producer; [|exact Hsub]; apply submseteq_nil_l).
  - unfold step_hits in Hstep.
    destruct (producer s) as [|[|hit rest]| |r] eqn:Hp; try done.
    destruct (workers s !! i) as [[]|] eqn:Hi; try done. simplify_eq.
    exists collected. simpl. repeat split; [done..|].
    eapply sub_keep; [exact Hi| |exact Hsub]. done.
  - unfold step_worker, worker_return, errgroup_returned in Hstep.
    destruct (workers s !! i) as [x|] eqn:Hi; [|done].
    exists collected.
    destruct x as [|hit|hit p| | |r]; try done; simpl in Hstep.
    + destruct (hits_closed s); simplify_eq. simpl. repeat split; [done..|].
      eapply sub_keep; [exact Hi| |exact Hsub]. done.
    + destruct (elastic.Source hit) as [raw|]; [|by simplify_eq].
      destruct (json.Unmarshal raw (mkSource "")) as [p [e|]].
      * destruct (g_err s); simplify_eq; simpl; repeat split; try done;
          (eapply sub_keep; [exact Hi| |exact Hsub]; simpl;
           apply submseteq_cons, reflexivity).
      * simplify_eq. simpl. repeat split; [done..|].
        eapply sub_keep; [exact Hi| |exact Hsub]. done.
    + simplify_eq. simpl. repeat split; [done..|].
      eapply sub_keep; [exact Hi| |exact Hsub]. done.
    + destruct (ctx_done s), (g_err s); simplify_eq; simpl;
        repeat split; try done;
        (eapply sub_keep; [exact Hi| |exact Hsub]; done).
  - unfold step_ch in Hstep.
    destruct (main_at s); try done.
    destruct (workers s !! i) as [[|hit|hit p| | |r]|] eqn:Hi; try done.
    simplify_eq.
    pose proof (inv_send _ _ Hinv _ _ _ Hi) as Hp.
    exists (collected ++ [hit]). simpl. split; [|split].
    + rewrite map_app, Hd. simpl. unfold decoded. by rewrite Hp.
    + apply Forall_app. split; [done|]. repeat constructor. by rewrite Hp.
    + eapply sub_move; [exact Hi| |exact Hsub]. done.
  - unfold step_waiter in Hstep. exists collected.
    destruct (waiter s); [|done]. destruct (all_returned s); [|done].
    destruct (g_err s); by simplify_eq.
  - unfold step_main in Hstep. exists collected.
    destruct (main_at s); try done.
    + destruct (ch_closed s); by simplify_eq.
    + by simplify_eq.
    + destruct (WriteFile_err s); by simplify_eq.
    + by simplify_eq.
Qed.

Lemma provenance_reachable n w s : reachable n w s → provenance w s.
Proof.
  intros [sched Hexec].
  assert (H : inv w (start n w) ∧ provenance w (start n w))
    by (split; [apply inv_start|apply provenance_start]).
  revert H Hexec. generalize (start n w).
  induction sched as [|l sched IH]; intros s0 [Hinv0 H0] Hexec; simpl in Hexec.
  - by simplify_eq.
  - destruct (step l s0) as [s1|] eqn:Hstep; [|done].
    eapply IH; [|done]. split; [by eapply inv_step|by eapply provenance_step].
Qed.

(** X2: main never collects anything the scroll did not deliver.  In
    every run, failed or not, the records in data are the decoded forms of
    hits that decode, these hits form a sub-multiset of the hits on the
    pages of the scroll (no hit is collected twice), the identifiers in
    data are among those of the pages, and data never holds more records
    than the pages hold hits. *)
Theorem data_only_from_pages n w s :
  reachable n w s →
  ∃ collected,
    slice_elems (data s) = map decoded collected
    ∧ Forall (λ hit, is_Some (decode hit)) collected
    ∧ collected ⊆+ scrolled_hits (Scroll_answers w)
    ∧ ids (slice_elems (data s)) ⊆+ map elastic.Id (scrolled_hits (Scroll_answers w))
    ∧ (len (data s) ≤ length (scrolled_hits (Scroll_answers w)))%nat.
Proof.
  intros (collected & Hd & Hdec & Hsub)%provenance_reachable.
  assert (Hc : collected ⊆+ scrolled_hits (Scroll_answers w)).
  { etrans; [|exact Hsub]. apply submseteq_inserts_r. reflexivity. }
  exists collected. repeat split; [done..| |].
  - rewrite Hd, ids_decoded. by apply fmap_submseteq.
  - unfold len. rewrite Hd, length_map. by apply submseteq_length.
Qed.

(** The run in which the first of eleven documents fails: nine of the
    eleven are collected. *)
Lemma data_only_from_pages_one_bad :
  ∃ collected,
    slice_elems (data (after sched_one_bad_of_eleven (main world_one_bad_of_eleven)))
    = map decoded collected
    ∧ Forall (λ hit, is_Some (decode hit)) collected
    ∧ collected ⊆+ scrolled_hits (Scroll_answers world_one_bad_of_eleven)
    ∧ ids (slice_elems (data (after sched_one_bad_of_eleven
                                (main world_one_bad_of_eleven))))
      ⊆+ map elastic.Id (scrolled_hits (Scroll_answers world_one_bad_of_eleven))
    ∧ (len (data (after sched_one_bad_of_eleven (main world_one_bad_of_eleven)))
       ≤ length (scrolled_hits (Scroll_answers world_one_bad_of_eleven)))%nat.
Proof.
  apply (data_only_from_pages 10 world_one_bad_of_eleven
           (after sched_one_bad_of_eleven (main world_one_bad_of_eleven))).
  exists sched_one_bad_of_eleven. vm_compute; reflexivity.
Defined.

(** ** Panics *)

(** The answer ioutil.WriteFile will give is the world's. *)
Lemma WriteFile_err_world n w s :
  reachable n w s → WriteFile_err s = WriteFile_answer w.
Proof.
  intros [sched Hexec].
  assert (H0 : WriteFile_err (start n w) = WriteFile_answer w).
  { unfold start. by destruct (NewClient_err w), (Count_result w). }
  revert H0 Hexec. generalize (start n w).
  induction sched as [|l sched IH]; intros s0 H0 Hexec; simpl in Hexec.
  - by simplify_eq.
  - destruct (step l s0) as [s1|] eqn:Hstep; [|done].
    eapply IH; [|done]. by rewrite (WriteFile_err_kept _ _ _ Hstep).
Qed.

(** The step in which a live process panics. *)
Lemma panicking_step l s s' e :
  step l s = Some s' → panicked s' = Some e →
  (l = run_waiter ∧ g_err s = Some e ∧ all_returned s = true
   ∧ g_err s' = Some e ∧ workers s' = workers s ∧ producer s' = producer s
   ∧ main_at s' = main_at s)
  ∨ (l = run_main ∧ WriteFile_err s = Some e
     ∧ ∃ j, main_at s = M_WriteFile j ∧ main_at s' = M_WriteFile j)
  ∨ (e = nil_dereference ∧ workers s' = workers s ∧ main_at s' = main_at s
     ∧ ∃ i hit, l = run_worker i ∧ workers s !! i = Some (W_Unmarshal hit)
                ∧ elastic.Source hit = None).
Proof.
  intros (Hpa & Hexit & Hstep)%step_inv Hpa'.
  destruct l as [|i|i|i| |].
  - unfold step_producer, producer_return, errgroup_returned in Hstep.
    repeat case_match; simplify_eq; simpl in *; congruence.
  - unfold step_hits in Hstep.
    repeat case_match; simplify_eq; simpl in *; congruence.
  - unfold step_worker, worker_return, errgroup_returned in Hstep.
    destruct (workers s !! i) as [x|] eqn:Hi; [|done].
    destruct x as [|hit|hit p| | |r]; try done; simpl in Hstep.
    + repeat case_match; simplify_eq; simpl in *; congruence.
    + destruct (elastic.Source hit) as [raw|] eqn:Hsrc.
      * repeat case_match; simplify_eq; simpl in *; congruence.
      * simplify_eq. simpl in *. simplify_eq.
        right. right. repeat split. by exists i, hit.
    + simplify_eq. simpl in *. congruence.
    + repeat case_match; simplify_eq; simpl in *; congruence.
  - unfold step_ch in Hstep.
    repeat case_match; simplify_eq; simpl in *; congruence.
  - unfold step_waiter in Hstep.
    destruct (waiter s); [|done].
    destruct (all_returned s) eqn:Hall; [|done].
    destruct (g_err s) eqn:Hg; simplify_eq; simpl in *; [|congruence].
    simplify_eq. left. by repeat split.
  - unfold step_main in Hstep.
    destruct (main_at s) as [| |j| |] eqn:Hma; try done.
    + destruct (ch_closed s); simplify_eq; simpl in *; congruence.
    + simplify_eq; simpl in *; congruence.
    + destruct (WriteFile_err s) eqn:Hwe; simplify_eq; simpl in *; [|congruence].
      simplify_eq. right. left. repeat split. by exists j.
    + simplify_eq; simpl in *; congruence.
Qed.

(** A run that has panicked is at its start or has just taken the
    panicking step. *)
Lemma panicked_last n w s e :
  reachable n w s → panicked s = Some e →
  s = start n w
  ∨ ∃ s0 l, reachable n w s0 ∧ panicked s0 = None ∧ step l s0 = Some s.
Proof.
  intros [sched Hexec] Hpa.
  destruct sched as [|l sched _] using rev_ind.
  - left. simpl in Hexec. by simplify_eq.
  - right. rewrite exec_app in Hexec.
    destruct (exec sched (start n w)) as [s0|] eqn:H0; [|done].
    simpl in Hexec. destruct (step l s0) as [s1|] eqn:Hstep; [|done].
    simplify_eq. exists s0, l. split; [by exists sched|].
    split; [|done]. by apply step_inv in Hstep as (? & _).
Qed.

(** Every panic has one of the five origins. *)
Lemma panic_cause n w s e :
  reachable n w s → panicked s = Some e → ∃ o, panics_from n w s e o.
Proof.
  intros Hreach Hpa.
  destruct (panicked_last n w s e Hreach Hpa) as [->|(s0 & l & Hr0 & Hpa0 & Hstep)].
  - unfold start in *.
    destruct (NewClient_err w) as [e0|] eqn:Hnc.
    + exists from_NewClient. simpl in *. split; [|congruence].
      unfold start. by rewrite Hnc.
    + destruct (Count_result w) as [e0|total] eqn:Hcount; [|done].
      exists from_Count. simpl in *. split; [|split; congruence].
      unfold start. by rewrite Hnc, Hcount.
  - pose proof (inv_reachable _ _ _ Hr0) as Hinv0.
    pose proof (inv_reachable _ _ _ Hreach) as Hinv.
    destruct (panicking_step l s0 s e Hstep Hpa)
      as [(-> & Hg & Hall & Hg' & Hws & Hp & Hma)
         |[(-> & Hwe & j & Hma & Hma')
          |(-> & Hws & Hma & i & hit & -> & Hi & Hsrc)]].
    + exists from_Wait. simpl. split; [done|]. split.
      * unfold all_returned in *. by rewrite Hws, Hp.
      * destruct (aborted_unwritten n w s Hreach) as [Hm _]; [|done].
        left. by exists e.
    + exists from_WriteFile. simpl. split; [|split; [|by exists j]].
      * by rewrite <- (WriteFile_err_world n w s0 Hr0).
      * destruct (collected_all n w s Hreach) as (Hg & _); [congruence|done].
    + exists from_nil_Source. simpl. split; [done|]. split.
      * rewrite Hma.
        assert (Hrun : all_returned s0 = false) by (by eapply running_worker).
        by destruct (waiting_while_running _ _ Hinv0 Hrun) as (_ & _ & ?).
      * exists i, hit. by rewrite Hws.
Qed.

(** The state main is in once it has left its loop over ch. *)
Lemma left_loop_step l s s' :
  step l s = Some s' →
  main_at s' = M_FinishPrint ∨ main_at s' = M_Exit →
  main_at s = M_FinishPrint
  ∨ ∃ j, main_at s = M_WriteFile j ∧ WriteFile_err s = None.
Proof.
  intros (Hpa & Hexit & Hstep)%step_inv Hma'.
  destruct l as [|i|i|i| |].
  - unfold step_producer, producer_return, errgroup_returned in Hstep.
    repeat case_match; simplify_eq; simpl in *;
      (destruct Hma' as [?|?]; [first [by left|congruence]|congruence]).
  - unfold step_hits in Hstep.
    repeat case_match; simplify_eq; simpl in *;
      (destruct Hma' as [?|?]; [first [by left|congruence]|congruence]).
  - unfold step_worker, worker_return, errgroup_returned in Hstep.
    repeat case_match; simplify_eq; simpl in *;
      (destruct Hma' as [?|?]; [first [by left|congruence]|congruence]).
  - unfold step_ch in Hstep.
    repeat case_match; simplify_eq; simpl in *;
      (destruct Hma' as [?|?]; [first [by left|congruence]|congruence]).
  - unfold step_waiter in Hstep.
    repeat case_match; simplify_eq; simpl in *;
      (destruct Hma' as [?|?]; [first [by left|congruence]|congruence]).
  - unfold step_main in Hstep.
    destruct (main_at s) as [| |j| |] eqn:Hma; try done.
    + destruct (ch_closed s); simplify_eq; simpl in *; by destruct Hma'.
    + simplify_eq; simpl in *; by destruct Hma'.
    + destruct (WriteFile_err s) eqn:Hwe; simplify_eq; simpl in *.
      * destruct Hma'; congruence.
      * right. by exists j.
    + by left.
Qed.

(** Main gets past ioutil.WriteFile only if the write succeeds. *)
Lemma finished_after_write n w sched : ∀ s,
  exec sched (start n w) = Some s →
  main_at s = M_FinishPrint ∨ main_at s = M_Exit →
  WriteFile_answer w = None.
Proof.
  induction sched as [|l sched IH] using rev_ind; intros s Hexec Hma.
  - simpl in Hexec. simplify_eq. unfold start in Hma.
    destruct (NewClient_err w), (Count_result w); simpl in Hma;
      destruct Hma; done.
  - rewrite exec_app in Hexec.
    destruct (exec sched (start n w)) as [s0|] eqn:H0; [|done].
    simpl in Hexec. destruct (step l s0) as [s1|] eqn:Hstep; [|done].
    simplify_eq.
    destruct (left_loop_step l s0 s Hstep Hma) as [Hma0|(j & Hma0 & Hwe)].
    + apply (IH s0 eq_refl). by left.
    + rewrite <- (WriteFile_err_world n w s0); [done|by exists sched].
Qed.

(** X3: whenever the process has panicked with value e, the panic has
    one of five origins, and e is what that origin reports: the error of
    elastic.NewClient or of the Count request (then no goroutine was
    started), the error g.Wait returned once every stage of the group had
    returned (main is still in its loop over ch), the error of
    ioutil.WriteFile (no stage of the group had failed), or the
    dereference of a nil _source by a worker.  If anything was handed to
    ioutil.WriteFile before the panic, the panic is the one of line 146. *)
Theorem panic_value_explained n w s e :
  reachable n w s → panicked s = Some e →
  ∃ o, panics_from n w s e o ∧ (written s ≠ [] → o = from_WriteFile).
Proof.
  intros Hreach Hpa.
  destruct (panic_cause n w s e Hreach Hpa) as [o Ho].
  exists o. split; [done|]. intros Hwr.
  pose proof (inv_written _ _ (inv_reachable _ _ _ Hreach)) as Hw.
  assert (Hma : main_at s ≠ M_Range).
  { intros Hma. rewrite Hma in Hw. done. }
  destruct o; simpl in Ho; try done.
  - destruct Ho as [-> _]. exfalso. apply Hma. unfold start.
    by destruct (NewClient_err w), (Count_result w).
  - destruct Ho as [-> _]. exfalso. apply Hma. unfold start.
    by destruct (NewClient_err w), (Count_result w).
  - by destruct Ho as (_ & _ & ?).
  - by destruct Ho as (_ & ? & _).
Qed.

(** The second scroll request fails: g.Wait hands the error to panic. *)
Lemma panic_value_explained_source_error :
  ∃ o, panics_from 10 world_source_error
         (after (sched_source_error ++ [run_producer] ++ sched_unwind)
            (main world_source_error))
         (remote_error "connection refused") o
       ∧ (written (after (sched_source_error ++ [run_producer] ++ sched_unwind)
                     (main world_source_error)) ≠ [] → o = from_WriteFile).
Proof.
  apply (panic_value_explained 10 world_source_error
           (after (sched_source_error ++ [run_producer] ++ sched_unwind)
              (main world_source_error))
           (remote_error "connection refused")).
  - exists (sched_source_error ++ [run_producer] ++ sched_unwind).
    vm_compute; reflexivity.
  - vm_compute; reflexivity.
Defined.

(** X4: when ioutil.WriteFile answers with an error, no run reaches
    bar.FinishPrint or the end of main; the file is handed to WriteFile at
    most once, and once that has happened the process has panicked with
    the error of the write. *)
Theorem write_failure_panics n w s e :
  WriteFile_answer w = Some e → reachable n w s →
  main_at s ≠ M_FinishPrint ∧ main_at s ≠ M_Exit ∧ ¬ succeeded s
  ∧ (written s ≠ [] →
     written s = [json.Marshal (data s)] ∧ panicked s = Some e).
Proof.
  intros Hw Hreach.
  assert (Hfin : ¬ (main_at s = M_FinishPrint ∨ main_at s = M_Exit)).
  { intros Hma. destruct Hreach as [sched Hexec].
    rewrite (finished_after_write n w sched s Hexec Hma) in Hw. done. }
  split; [tauto|]. split; [tauto|]. split.
  { intros [Hma _]. tauto. }
  intros Hwr.
  pose proof (inv_reachable _ _ _ Hreach) as Hinv.
  pose proof (inv_written _ _ Hinv) as Hwritten.
  destruct (main_at s) as [| |j| |] eqn:Hma; try done; try tauto.
  destruct (panicked s) as [e'|] eqn:Hpa; [|done].
  rewrite (inv_json _ _ Hinv j Hma) in Hwritten. split; [done|].
  destruct (panic_cause n w s e' Hreach Hpa) as [o Ho].
  destruct o; simpl in Ho.
  - destruct Ho as [-> _]. exfalso. revert Hma. unfold start.
    by destruct (NewClient_err w), (Count_result w).
  - destruct Ho as [-> _]. exfalso. revert Hma. unfold start.
    by destruct (NewClient_err w), (Count_result w).
  - destruct Ho as (_ & _ & ?). congruence.
  - destruct Ho as (? & _). congruence.
  - destruct Ho as (_ & ? & _). congruence.
Qed.

(** The query matches nothing and the disk is full: main panics at line
    146 with the error of the write, after handing null to WriteFile. *)
Lemma write_failure_panics_disk_full :
  main_at (after sched_write (main world_disk_full)) ≠ M_FinishPrint
  ∧ main_at (after sched_write (main world_disk_full)) ≠ M_Exit
  ∧ ¬ succeeded (after sched_write (main world_disk_full))
  ∧ (written (after sched_write (main world_disk_full)) ≠ [] →
     written (after sched_write (main world_disk_full))
     = [json.Marshal (data (after sched_write (main world_disk_full)))]
     ∧ panicked (after sched_write (main world_disk_full))
       = Some (remote_error "disk full")).
Proof.
  apply (write_failure_panics 10 world_disk_full
           (after sched_write (main world_disk_full)) (remote_error "disk full")).
  - reflexivity.
  - exists sched_write. vm_compute; reflexivity.
Defined.

(** ** Channels, root causes and deadlock *)

(** The step that stores an error in the group. *)
Lemma group_set_step l s s' e :
  step l s = Some s' → g_err s = None → g_err s' = Some e →
  (producer s = P_Do ∧ (elastic.Do (scroll s)).1 = elastic.Fail e ∧ e ≠ io_EOF)
  ∨ (∃ i hit raw, workers s !! i = Some (W_Unmarshal hit)
                  ∧ elastic.Source hit = Some raw
                  ∧ (json.Unmarshal raw (mkSource "")).2 = Some e)
  ∨ (ctx_done s = true ∧ all_returned s = false).
Proof.
  intros (Hpa & Hexit & Hstep)%step_inv Hg Hg'.
  destruct l as [|i|i|i| |].
  - unfold step_producer, producer_return, errgroup_returned in Hstep.
    destruct (producer s) as [|[|hit rest]| |r] eqn:Hp; try done.
    + destruct (elastic.Do (scroll s)) as [[hs|err] c] eqn:HDo.
      * simplify_eq. simpl in *. congruence.
      * destruct (decide (err = io_EOF)); simplify_eq; simpl in *;
          rewrite Hg in *; simpl in *; [congruence|].
        simplify_eq. left. by repeat split.
    + simplify_eq. simpl in *. congruence.
    + destruct (ctx_done s) eqn:Hcd; simplify_eq; simpl in *; [|congruence].
      right. right. split; [done|]. unfold all_returned. by rewrite Hp.
  - unfold step_hits in Hstep.
    repeat case_match; simplify_eq; simpl in *; congruence.
  - unfold step_worker, worker_return, errgroup_returned in Hstep.
    destruct (workers s !! i) as [x|] eqn:Hi; [|done].
    destruct x as [|hit|hit p| | |r]; try done; simpl in Hstep.
    + destruct (hits_closed s); simplify_eq; simpl in *; congruence.
    + destruct (elastic.Source hit) as [raw|] eqn:Hsrc.
      * destruct (json.Unmarshal raw (mkSource "")) as [p [e0|]] eqn:Hun;
          simplify_eq; simpl in *; rewrite ?Hg in *; simpl in *; [|congruence].
        simplify_eq. right. left. exists i, hit, raw. by rewrite Hun.
      * simplify_eq. simpl in *. congruence.
    + simplify_eq. simpl in *. congruence.
    + destruct (ctx_done s) eqn:Hcd; simplify_eq; simpl in *; [|congruence].
      right. right. split; [done|]. by eapply running_worker.
  - unfold step_ch in Hstep.
    repeat case_match; simplify_eq; simpl in *; congruence.
  - unfold step_waiter in Hstep.
    repeat case_match; simplify_eq; simpl in *; congruence.
  - unfold step_main in Hstep.
    repeat case_match; simplify_eq; simpl in *; congruence.
Qed.

(** X5: a worker at its send on ch always finds ch open and main ready
    to receive: unless the process has panicked, the rendezvous can take
    place at once, main appends the record made of the decoded _source
    and the identifier of the hit, and the worker goes on to
    bar.Increment.  A worker never blocks on ch. *)
Theorem result_always_received n w s i hit p :
  reachable n w s → workers s !! i = Some (W_Send hit p) →
  ch_closed s = false ∧ main_at s = M_Range
  ∧ (panicked s = None →
     ∃ s', step (pass_result i) s = Some s'
           ∧ slice_elems (data s') = slice_elems (data s) ++ [decoded hit]
           ∧ workers s' !! i = Some W_Increment).
Proof.
  intros Hreach Hi.
  pose proof (inv_reachable _ _ _ Hreach) as Hinv.
  assert (Hrun : all_returned s = false) by (by eapply running_worker).
  destruct (waiting_while_running _ _ Hinv Hrun) as (_ & Hcc & Hma).
  split; [done|]. split; [done|]. intros Hpa.
  eexists. split.
  - unfold step, step_ch. by rewrite Hpa, Hma, Hi.
  - simpl. split.
    + unfold decoded. by rewrite (inv_send _ _ Hinv i hit p Hi).
    + apply list_lookup_insert_eq. by eapply lookup_lt_Some.
Qed.

(** Worker 0 has decoded the first of three documents. *)
Lemma result_always_received_three :
  ch_closed (after [run_producer; pass_hit 0; run_worker 0] (main world_three)) = false
  ∧ main_at (after [run_producer; pass_hit 0; run_worker 0] (main world_three)) = M_Range
  ∧ (panicked (after [run_producer; pass_hit 0; run_worker 0] (main world_three)) = None →
     ∃ s', step (pass_result 0)
             (after [run_producer; pass_hit 0; run_worker 0] (main world_three)) = Some s'
           ∧ slice_elems (data s')
             = slice_elems (data (after [run_producer; pass_hit 0; run_worker 0]
                                    (main world_three))) ++ [decoded hit_a]
           ∧ workers s' !! 0 = Some W_Increment).
Proof.
  apply (result_always_received 10 world_three
           (after [run_producer; pass_hit 0; run_worker 0] (main world_three))
           0 hit_a (mkSource "x")).
  - exists [run_producer; pass_hit 0; run_worker 0]. vm_compute; reflexivity.
  - vm_compute; reflexivity.
Defined.

(** X6: the error stored in the errgroup, which is the one g.Wait
    returns and line 129 panics with, is always a root cause: the error
    other than io.EOF with which scroll.Do ended the scroll, or the error
    json.Unmarshal returns for the _source of some hit of the pages.  It
    is never the ctx.Err() of one of the two early-termination checks. *)
Theorem group_error_is_root_cause n w s e :
  reachable n w s → g_err s = Some e → root_cause w e.
Proof.
  intros [sched Hexec]. revert s e Hexec.
  induction sched as [|l sched IH] using rev_ind; intros s e Hexec Hg.
  - simpl in Hexec. simplify_eq. unfold start in Hg.
    by destruct (NewClient_err w), (Count_result w).
  - rewrite exec_app in Hexec.
    destruct (exec sched (start n w)) as [s0|] eqn:H0; [|done].
    simpl in Hexec. destruct (step l s0) as [s1|] eqn:Hstep; [|done].
    simplify_eq.
    destruct (g_err s0) as [e0|] eqn:Hg0.
    { destruct (group_kept l s0 s Hstep) as [_ Hkept].
      rewrite (Hkept e0 Hg0) in Hg. simplify_eq. by apply (IH s0). }
    assert (Hr0 : reachable n w s0) by (by exists sched).
    pose proof (inv_reachable _ _ _ Hr0) as Hinv.
    destruct (group_set_step l s0 s e Hstep Hg0 Hg)
      as [(Hp & HDo & Hne)|[(i & hit & raw & Hi & Hsrc & Hun)|[Hcd Hrun]]].
    + left. split; [|done].
      pose proof (inv_end _ _ Hinv Hg0) as Hend. rewrite Hp in Hend.
      simpl in Hend. rewrite <- Hend.
      destruct (scroll s0) as [|[hs|err] c]; simpl in *; congruence.
    + right. exists hit, raw. split; [|done].
      eapply (in_flight_scrolled w s0 i); [done..|]. simpl. by left.
    + apply (inv_ctx _ _ Hinv) in Hcd as [[e0 He0]|Hwa]; [congruence|].
      destruct (inv_closed _ _ Hinv Hwa) as (_ & Hall & _). congruence.
Qed.

(** Eleven documents, the first of which has a number for code. *)
Lemma group_error_is_root_cause_one_bad :
  root_cause world_one_bad_of_eleven (UnmarshalTypeError "number").
Proof.
  apply (group_error_is_root_cause 10 world_one_bad_of_eleven
           (after sched_one_bad_of_eleven (main world_one_bad_of_eleven))).
  - exists sched_one_bad_of_eleven. vm_compute; reflexivity.
  - vm_compute; reflexivity.
Defined.

(** A deadlocked run has its producer stranded. *)
Lemma deadlocked_stranded n w s :
  reachable n w s → deadlocked s → stranded s.
Proof.
  intros Hreach (Hpa & Hexit & Hstuck).
  pose proof (inv_reachable _ _ _ Hreach) as Hinv.
  assert (Hma : main_at s = M_Range).
  { pose proof (Hstuck run_main) as H. unfold step, step_main in H.
    rewrite Hpa in H. destruct (main_at s); try done.
    by destruct (WriteFile_err s). }
  assert (Hcc : ch_closed s = false).
  { pose proof (Hstuck run_main) as H. unfold step, step_main in H.
    rewrite Hpa, Hma in H. by destruct (ch_closed s). }
  assert (Hwa : waiter s = G_Wait).
  { destruct (waiter s) eqn:Hwa; [done|].
    destruct (inv_closed _ _ Hinv Hwa) as (? & _). congruence. }
  assert (Hrun : all_returned s = false).
  { pose proof (Hstuck run_waiter) as H. unfold step, step_waiter in H.
    rewrite Hpa, Hma, Hwa in H. destruct (all_returned s); [|done].
    by destruct (g_err s). }
  assert (Hp : (∃ hit rest, producer s = P_Send (hit :: rest))
               ∨ ∃ r, producer s = P_Returned r).
  { pose proof (Hstuck run_producer) as H. unfold step, step_producer in H.
    rewrite Hpa, Hma in H.
    destruct (producer s) as [|[|hit rest]| |r]; eauto.
    - destruct (elastic.Do (scroll s)) as [[hs|err] c]; [done|].
      by destruct (decide (err = io_EOF)).
    - done.
    - by destruct (ctx_done s). }
  assert (Hws : forallb worker_returned (workers s) = true).
  { destruct (forallb worker_returned (workers s)) eqn:Hws; [done|].
    apply forallb_false_lookup in Hws as (i & x & Hi & Hx).
    destruct (worker_moves s i x Hpa Hma Hi Hx) as (l & s' & Hstep).
    - intros ->. destruct Hp as [Hp|[r Hp]]; [by right|left].
      rewrite (inv_hits _ _ Hinv), Hp. done.
    - by rewrite Hstuck in Hstep. }
  split; [done|]. split; [done|].
  destruct Hp as [Hp|[r Hp]]; [done|].
  unfold all_returned in Hrun. rewrite Hp, Hws in Hrun. done.
Qed.

(** X7: a run is deadlocked exactly when the producer sits in its send
    on hits with a hit in hand while every worker has returned.  With at
    least one worker this only happens after a failure: the group holds an
    error, the context is cancelled, and nothing has been written or will
    ever be reported. *)
Theorem deadlock_is_stranded_producer n w s :
  reachable n w s →
  (deadlocked s ↔ stranded s)
  ∧ (0 < n → deadlocked s →
     is_Some (g_err s) ∧ ctx_done s = true ∧ waiter s = G_Wait
     ∧ main_at s = M_Range ∧ written s = []).
Proof.
  intros Hreach.
  pose proof (inv_reachable _ _ _ Hreach) as Hinv.
  pose proof (returned_inv_reachable _ _ _ Hreach) as Hret.
  pose proof (deadlocked_stranded n w s Hreach) as Hto.
  split; [split; [done|]|].
  - intros (Hpa & Hws & hit & rest & Hp).
    by eapply producer_stranded.
  - intros Hn Hdead.
    destruct (Hto Hdead) as (Hpa & Hws & hit & rest & Hp).
    assert (Hg : is_Some (g_err s)).
    { pose proof (ret_workers _ _ Hret Hpa) as Hlen.
      assert (H0 : is_Some (workers s !! 0)) by (apply lookup_lt_is_Some; lia).
      destruct H0 as [x H0].
      destruct (returned_lookup _ 0 Hws) as [H|[r H]]; [congruence|].
      rewrite H0 in H. simplify_eq. destruct r as [e|].
      - by eapply (ret_err _ _ Hret 0).
      - pose proof (ret_nil _ _ Hret 0 H0) as Hhc.
        rewrite (inv_hits _ _ Hinv), Hp in Hhc. done. }
    assert (Hab : aborted s) by (by left).
    destruct (aborted_unwritten n w s Hreach Hab) as [Hma Hwr].
    split; [done|]. split; [apply (inv_ctx _ _ Hinv); by left|].
    split; [|done].
    destruct (waiter s) eqn:Hwa; [done|].
    destruct (inv_closed _ _ Hinv Hwa) as (_ & _ & Hnone).
    destruct Hg as [e He]. congruence.
Qed.

(** The run in which the first of eleven documents fails. *)
Lemma deadlock_is_stranded_producer_one_bad :
  (deadlocked (after sched_one_bad_of_eleven (main world_one_bad_of_eleven))
   ↔ stranded (after sched_one_bad_of_eleven (main world_one_bad_of_eleven)))
  ∧ (0 < 10 →
     deadlocked (after sched_one_bad_of_eleven (main world_one_bad_of_eleven)) →
     is_Some (g_err (after sched_one_bad_of_eleven (main world_one_bad_of_eleven)))
     ∧ ctx_done (after sched_one_bad_of_eleven (main world_one_bad_of_eleven)) = true
     ∧ waiter (after sched_one_bad_of_eleven (main world_one_bad_of_eleven)) = G_Wait
     ∧ main_at (after sched_one_bad_of_eleven (main world_one_bad_of_eleven)) = M_Range
     ∧ written (after sched_one_bad_of_eleven (main world_one_bad_of_eleven)) = []).
Proof.
  apply (deadlock_is_stranded_producer 10 world_one_bad_of_eleven
           (after sched_one_bad_of_eleven (main world_one_bad_of_eleven))).
  exists sched_one_bad_of_eleven. vm_compute; reflexivity.
Defined.

(** ** Halting, finishing and winding down *)

(** The fuel of a cursor in terms of its hits and answers. *)
Lemma scroll_fuel_bound (c : elastic.Scroll) :
  (scroll_fuel c ≤ 5 * length (c ≫= page_hits) + 3 * length c + 1)%nat.
Proof.
  induction c as [|[hs|e] c IH]; [simpl; lia|..].
  - rewrite bind_cons, length_app. simpl. lia.
  - rewrite bind_cons. simpl. lia.
Qed.

(** The fuel main starts with. *)
Lemma fuel_start n w : (fuel (start n w) ≤ step_bound n w)%nat.
Proof.
  unfold start, step_bound.
  destruct (NewClient_err w); [unfold fuel; simpl; lia|].
  destruct (Count_result w); [unfold fuel; simpl; lia|].
  unfold fuel, spawned. simpl.
  pose proof (scroll_fuel_bound (Scroll_answers w)).
  assert (Hn : sum_list (worker_fuel <$> replicate n W_Range) = n).
  { clear. induction n as [|n IH]; simpl in *; [done|]. by f_equal. }
  rewrite Hn. lia.
Qed.

(** X8: every run of main halts, whatever the world answers and
    however the goroutines are scheduled: no run takes more steps than
    five for every hit the cursor holds, three for every answer of the
    cursor, one for every worker and six more. *)
Theorem every_run_halts n w sched s :
  exec sched (start n w) = Some s → (length sched ≤ step_bound n w)%nat.
Proof.
  intros Hexec. pose proof (run_bounded sched _ _ Hexec).
  pose proof (fuel_start n w). lia.
Qed.

(** The run on three documents takes 37 steps, the bound is 40. *)
Lemma every_run_halts_three :
  (length (sched_three 10) ≤ step_bound 10 world_three)%nat.
Proof.
  apply (every_run_halts 10 world_three (sched_three 10)
           (after (sched_three 10) (main world_three))).
  vm_compute; reflexivity.
Defined.

(** With nothing failing, a run of fuel k can be brought to its end. *)
Lemma finish_from n w (Hn : 0 < n) (Hw : error_free w) : ∀ k s,
  (fuel s ≤ k)%nat → reachable n w s →
  ∃ sched s', exec sched s = Some s' ∧ succeeded s'.
Proof.
  induction k as [|k IH]; intros s Hk Hreach.
  - destruct Hreach as [sched0 H0].
    destruct (error_free_never_fails n w sched0 s Hw H0) as (Hg & Hpa & _).
    assert (Hd : main_at s = M_Exit ∨ main_at s ≠ M_Exit)
      by (destruct (main_at s); [right..|left]; done).
    destruct Hd as [Hma|Hma].
    { by exists [], s. }
    destruct (moves_unless_failed n w s) as (l & s1 & Hstep);
      [done|by exists sched0|done..|].
    apply step_fuel in Hstep. lia.
  - destruct Hreach as [sched0 H0].
    destruct (error_free_never_fails n w sched0 s Hw H0) as (Hg & Hpa & _).
    assert (Hd : main_at s = M_Exit ∨ main_at s ≠ M_Exit)
      by (destruct (main_at s); [right..|left]; done).
    destruct Hd as [Hma|Hma].
    { by exists [], s. }
    destruct (moves_unless_failed n w s) as (l & s1 & Hstep);
      [done|by exists sched0|done..|].
    destruct (IH s1) as (sched & s' & Hexec & Hsucc).
    + apply step_fuel in Hstep. lia.
    + apply (reachable_exec n w [l] s); [by exists sched0|].
      cbn [exec]. by rewrite Hstep.
    + exists (l :: sched), s'. split; [|done]. cbn [exec]. by rewrite Hstep.
Qed.

(** X9: in a world in which nothing fails, with at least one worker,
    no schedule can spoil a run: from every state a run can reach, the run
    can be continued to the end of main, with data.json written once and
    holding the identifiers of all hits of the pages. *)
Theorem success_stays_reachable n w s :
  0 < n → error_free w → reachable n w s →
  ∃ sched s',
    exec sched s = Some s' ∧ succeeded s'
    ∧ written s' = [json.Marshal (data s')]
    ∧ ids (slice_elems (data s')) ≡ₚ map elastic.Id (scrolled_hits (Scroll_answers w)).
Proof.
  intros Hn Hw Hreach.
  destruct (finish_from n w Hn Hw (fuel s) s) as (sched & s' & Hexec & Hsucc);
    [lia|done|].
  exists sched, s'. split; [done|]. split; [done|].
  assert (Hr' : reachable n w s') by (by eapply reachable_exec).
  destruct Hsucc as [Hma Hpa]. split.
  - pose proof (inv_written _ _ (inv_reachable _ _ _ Hr')) as H.
    by rewrite Hma in H.
  - apply (collected_ids n w s' Hr'). congruence.
Qed.

(** Worker 0 holds the first of three documents, decoded. *)
Lemma success_stays_reachable_three :
  ∃ sched s',
    exec sched (after [run_producer; pass_hit 0; run_worker 0] (main world_three))
    = Some s' ∧ succeeded s'
    ∧ written s' = [json.Marshal (data s')]
    ∧ ids (slice_elems (data s'))
      ≡ₚ map elastic.Id (scrolled_hits (Scroll_answers world_three)).
Proof.
  apply (success_stays_reachable 10 world_three
           (after [run_producer; pass_hit 0; run_worker 0] (main world_three))).
  - lia.
  - repeat split; try done.
    + by exists 3%Z.
    + repeat constructor; by eexists.
  - exists [run_producer; pass_hit 0; run_worker 0]. vm_compute; reflexivity.
Defined.

(** One step under a cancelled context. *)
Lemma cancelled_step l s s' :
  ctx_done s = true → step l s = Some s' →
  (len (data s') + sum_list (may_deliver <$> workers s')
   ≤ len (data s) + sum_list (may_deliver <$> workers s))%nat
  ∧ (length (scroll s) + may_request (producer s')
     ≤ length (scroll s') + may_request (producer s))%nat.
Proof.
  intros Hcd (Hpa & Hexit & Hstep)%step_inv.
  destruct l as [|i|i|i| |].
  - unfold step_producer, producer_return, errgroup_returned in Hstep.
    destruct (producer s) as [|[|hit rest]| |r] eqn:Hp; try done.
    + destruct (scroll s) as [|[hs|e] c] eqn:Hsc; simpl in Hstep.
      * simplify_eq. simpl. rewrite ?Hsc. simpl. lia.
      * simplify_eq. simpl. rewrite ?Hsc. simpl. lia.
      * destruct (decide (e = io_EOF)), (g_err s); simplify_eq; simpl;
          rewrite ?Hsc; simpl; lia.
    + simplify_eq. simpl. lia.
    + rewrite Hcd in Hstep. simpl in Hstep.
      destruct (g_err s); simplify_eq; simpl; lia.
  - unfold step_hits in Hstep.
    destruct (producer s) as [|[|hit rest]| |r] eqn:Hp; try done.
    destruct (workers s !! i) as [[]|] eqn:Hi; try done. simplify_eq. simpl.
    pose proof (sum_list_insert may_deliver _ i _ (W_Unmarshal hit) Hi).
    simpl in *. lia.
  - unfold step_worker, worker_return, errgroup_returned in Hstep.
    destruct (workers s !! i) as [x|] eqn:Hi; [|done].
    destruct x as [|hit|hit p| | |r]; try done; simpl in Hstep.
    + destruct (hits_closed s); [|done].
      pose proof (sum_list_insert may_deliver _ i _ (W_Returned None) Hi).
      simplify_eq. simpl in *. lia.
    + destruct (elastic.Source hit) as [raw|].
      * destruct (json.Unmarshal raw (mkSource "")) as [p [e|]].
        -- pose proof (sum_list_insert may_deliver _ i _ (W_Returned (Some e)) Hi).
           simpl in Hstep. destruct (g_err s); simplify_eq; simpl in *; lia.
        -- pose proof (sum_list_insert may_deliver _ i _ (W_Send hit p) Hi).
           simplify_eq. simpl in *. lia.
      * simplify_eq. simpl. lia.
    + pose proof (sum_list_insert may_deliver _ i _ W_Select Hi).
      simplify_eq. simpl in *. lia.
    + rewrite Hcd in Hstep. simpl in Hstep.
      pose proof (sum_list_insert may_deliver _ i _ (W_Returned (Some ctx_Err)) Hi).
      destruct (g_err s); simplify_eq; simpl in *; lia.
  - unfold step_ch in Hstep.
    destruct (main_at s); try done.
    destruct (workers s !! i) as [[]|] eqn:Hi; try done. simplify_eq. simpl.
    pose proof (sum_list_insert may_deliver _ i _ W_Increment Hi).
    rewrite len_append. simpl in *. lia.
  - unfold step_waiter in Hstep.
    destruct (waiter s); [|done]. destruct (all_returned s); [|done].
    simpl in Hstep. destruct (g_err s); simplify_eq; simpl; lia.
  - unfold step_main in Hstep.
    destruct (main_at s); try done.
    + destruct (ch_closed s); simplify_eq; simpl; lia.
    + simplify_eq; simpl; lia.
    + destruct (WriteFile_err s); simplify_eq; simpl; lia.
    + simplify_eq; simpl; lia.
Qed.

(** Any number of steps under a cancelled context. *)
Lemma cancelled_exec sched : ∀ s s',
  ctx_done s = true → exec sched s = Some s' →
  (len (data s') + sum_list (may_deliver <$> workers s')
   ≤ len (data s) + sum_list (may_deliver <$> workers s))%nat
  ∧ (length (scroll s) + may_request (producer s')
     ≤ length (scroll s') + may_request (producer s))%nat.
Proof.
  induction sched as [|l sched IH]; intros s s' Hcd Hexec; simpl in Hexec.
  - simplify_eq. lia.
  - destruct (step l s) as [s1|] eqn:Hstep; [|done].
    destruct (cancelled_step l s s1 Hcd Hstep) as [H1 H2].
    destruct (group_kept l s s1 Hstep) as [Hcd1 _].
    destruct (IH s1 s' (Hcd1 Hcd) Hexec) as [H3 H4]. lia.
Qed.

(** No worker delivers more than one record. *)
Lemma may_deliver_length (ws : list worker_pc) :
  (sum_list (may_deliver <$> ws) ≤ length ws)%nat.
Proof.
  induction ws as [|x ws IH]; [simpl; lia|].
  rewrite fmap_cons. cbn [sum_list length]. destruct x; simpl; lia.
Qed.

(** X10: what the two early-termination checks guarantee.  Once the
    context is cancelled, whatever the run does afterwards, every worker
    hands at most one more record to main (and none if it is already past
    its send), so that data grows by at most the number of workers, and
    the producer calls scroll.Do at most once more. *)
Theorem cancelled_run_winds_down s sched s' :
  ctx_done s = true → exec sched s = Some s' →
  (len (data s') ≤ len (data s) + sum_list (may_deliver <$> workers s))%nat
  ∧ (len (data s') ≤ len (data s) + length (workers s))%nat
  ∧ (length (scroll s) ≤ length (scroll s') + may_request (producer s))%nat
  ∧ (length (scroll s) ≤ length (scroll s') + 1)%nat.
Proof.
  intros Hcd Hexec.
  destruct (cancelled_exec sched s s' Hcd Hexec) as [H1 H2].
  pose proof (may_deliver_length (workers s)).
  assert (may_request (producer s) ≤ 1)%nat by (destruct (producer s); simpl; lia).
  lia.
Qed.

(** After the first of eleven documents has failed in worker 0, the
    other nine workers still deliver one record each. *)
Lemma cancelled_run_winds_down_one_bad :
  ∃ s s',
    exec sched_first_fails (main world_one_bad_of_eleven) = Some s
    ∧ exec (flat_map one_hit (seq 1 9)) s = Some s'
    ∧ len (data s) = 0 ∧ len (data s') = 9
    ∧ (len (data s') ≤ len (data s) + sum_list (may_deliver <$> workers s))%nat
    ∧ (len (data s') ≤ len (data s) + length (workers s))%nat
    ∧ (length (scroll s) ≤ length (scroll s') + may_request (producer s))%nat
    ∧ (length (scroll s) ≤ length (scroll s') + 1)%nat.
Proof.
  exists (after sched_first_fails (main world_one_bad_of_eleven)),
    (after sched_one_bad_of_eleven (main world_one_bad_of_eleven)).
  split; [vm_compute; reflexivity|]. split; [vm_compute; reflexivity|].
  split; [vm_compute; reflexivity|]. split; [vm_compute; reflexivity|].
  apply (cancelled_run_winds_down
           (after sched_first_fails (main world_one_bad_of_eleven))
           (flat_map one_hit (seq 1 9))).
  - vm_compute; reflexivity.
  - vm_compute; reflexivity.
Defined.

(** When ch is closed the scroll has ended with io.EOF and every hit
    of the pages has decoded. *)
Lemma closed_all_good w s :
  inv w s → ch_closed s = true →
  scroll_end (Scroll_answers w) = io_EOF
  ∧ Forall (λ hit, is_Some (decode hit)) (scrolled_hits (Scroll_answers w)).
Proof.
  intros Hinv Hcc.
  pose proof (inv_ch _ _ Hinv Hcc) as Hwa.
  destruct (inv_closed _ _ Hinv Hwa) as (_ & Hall & Hg).
  unfold all_returned in Hall. apply andb_true_iff in Hall as [Hp Hws].
  pose proof (inv_end _ _ Hinv Hg) as Hend. rewrite Hp in Hend.
  split; [done|].
  destruct (inv_flow _ _ Hinv Hg) as (collected & Hd & Hdec & Hperm).
  unfold to_send in Hperm. rewrite (returned_in_flight _ Hws) in Hperm.
  destruct (producer s); try done. simpl in Hperm.
  rewrite app_nil_r in Hperm. by rewrite Hperm.
Qed.

(** X11: in a world whose scroll ends with an error other than io.EOF
    or yields a hit that does not decode, no run ever closes ch, leaves
    the loop over ch or calls ioutil.WriteFile, and a run can only come to
    rest in a panic or with the producer stranded in its send on hits;
    main never returns. *)
Theorem failing_world_ends_badly n w s :
  failing w → reachable n w s →
  ch_closed s = false ∧ main_at s = M_Range ∧ written s = []
  ∧ ((∀ l, step l s = None) → is_Some (panicked s) ∨ stranded s).
Proof.
  intros Hfail Hreach.
  pose proof (inv_reachable _ _ _ Hreach) as Hinv.
  destruct (failing_world_never_persists n w s Hfail Hreach) as (Hma & Hwr & _).
  split.
  { destruct (ch_closed s) eqn:Hcc; [|done].
    destruct (closed_all_good w s Hinv Hcc) as [Hend Hdec].
    destruct Hfail as [Hfail|Hfail]; [done|].
    apply Exists_exists in Hfail as (hit & Hin & Hnone).
    rewrite Forall_forall in Hdec. destruct (Hdec hit Hin) as [p Hp].
    congruence. }
  split; [done|]. split; [done|]. intros Hstuck.
  destruct (panicked s) as [e|] eqn:Hpa; [left; by eexists|right].
  apply (deadlocked_stranded n w s Hreach).
  split; [done|]. split; [congruence|done].
Qed.

(** The run in which the first of eleven documents fails comes to rest
    with the producer stranded. *)
Lemma failing_world_ends_badly_one_bad :
  ch_closed (after sched_one_bad_of_eleven (main world_one_bad_of_eleven)) = false
  ∧ main_at (after sched_one_bad_of_eleven (main world_one_bad_of_eleven)) = M_Range
  ∧ written (after sched_one_bad_of_eleven (main world_one_bad_of_eleven)) = []
  ∧ ((∀ l, step l (after sched_one_bad_of_eleven (main world_one_bad_of_eleven)) = None) →
     is_Some (panicked (after sched_one_bad_of_eleven (main world_one_bad_of_eleven)))
     ∨ stranded (after sched_one_bad_of_eleven (main world_one_bad_of_eleven))).
Proof.
  apply (failing_world_ends_badly 10 world_one_bad_of_eleven
           (after sched_one_bad_of_eleven (main world_one_bad_of_eleven))).
  - right. apply Exists_cons_hd. vm_compute; reflexivity.
  - exists sched_one_bad_of_eleven. vm_compute; reflexivity.
Defined.

(** ** What is written for a hit *)

(** The last of a list that begins with s. *)
Lemma last_after (c s : string) (l : list string) :
  default s (last l) = default c (last (s :: l)).
Proof. rewrite last_cons. by destruct (last l). Qed.

(** Decoding the members of an object that holds no bad member for
    Code: the last string offered wins. *)
Lemma object_into_Source_last members : ∀ p,
  bad_code_member members = false →
  json.object_into_Source members p None
  = (mkSource (default (Code p) (last (code_values members))), None).
Proof.
  induction members as [|[key v] members IH]; intros [c] Hbad.
  - done.
  - unfold bad_code_member in Hbad. simpl in Hbad.
    apply orb_false_iff in Hbad as [Hkv Hbad].
    unfold code_values. simpl.
    destruct (json.field_matches "code" key) eqn:Hkey; simpl in *.
    + destruct v; try done; simpl.
      * by rewrite (IH _ Hbad).
      * rewrite (IH _ Hbad). simpl. f_equal. f_equal.
        apply (last_after c s (code_values members)).
    + by rewrite (IH _ Hbad).
Qed.

(** X12: what data.json holds for a hit.  When the _source of a hit is
    an object in which every member for Code is a string or null, the
    worker decodes it to the last string given under a key that spells
    code in any mixture of upper and lower case (the empty string when
    there is none; null and members under other keys change nothing),
    and the record main marshals for the hit has exactly the two members
    code, with that string, and ID, with the identifier of the hit. *)
Theorem written_record_of_hit hit members :
  elastic.Source hit = Some (json.WellFormed (json.Object members)) →
  bad_code_member members = false →
  decode hit = Some (mkSource (default "" (last (code_values members))))
  ∧ json.Marshal_Hit (decoded hit)
    = json.Object [("code", json.String (default "" (last (code_values members))));
                   ("ID", json.String (elastic.Id hit))].
Proof.
  intros Hsrc Hbad.
  assert (Hdec : decode hit
                 = Some (mkSource (default "" (last (code_values members))))).
  { unfold decode. rewrite Hsrc. simpl.
    by rewrite (object_into_Source_last members (mkSource "") Hbad). }
  split; [done|]. unfold decoded. by rewrite Hdec.
Qed.

(** Two spellings of the key and a null: the second string is kept. *)
Lemma written_record_of_hit_twice :
  decode hit_twice = Some (mkSource "y")
  ∧ json.Marshal_Hit (decoded hit_twice)
    = json.Object [("code", json.String "y"); ("ID", json.String "7")].
Proof.
  apply (written_record_of_hit hit_twice
           [("code", json.String "x"); ("name", json.Number "1");
            ("CODE", json.String "y"); ("Code", json.Null)]).
  - reflexivity.
  - vm_compute; reflexivity.
Defined.
